(** * The conversation manager of [streamlit_app.py]

    A shallow embedding of the session logic of the Streamlit front-end:
    the five [st.session_state] entries, the widget handlers that mutate
    them (New Chat, the per-chat load and delete buttons, Clear Current
    Chat, and the chat input), and the Python list objects they share.

    Python lists are mutable objects: [st.session_state.messages.append]
    mutates in place, [.copy()] and [[]] create new objects.  The model
    therefore keeps an object store ([heap]) and lets the session and the
    saved chats hold references into it. *)

From Stdlib Require Import QArith String Ascii Sorted.
From stdpp Require Import gmap list.
Close Scope Q_scope.
Close Scope string_scope.

(** ** Python values *)

(** A Python [str] is a sequence of Unicode code points; [len] and slicing
    count code points. *)
Definition codepoint := N.
Definition pystr := list codepoint.

(** An ASCII literal of the source. *)
Definition lit (s : string) : pystr := N_of_ascii <$> list_ascii_of_string s.

(** Truthiness of a [str], and of an [Optional[str]] ([None] and [""] are
    both falsy). *)
Definition str_truthy (s : pystr) : bool :=
  match s with [] => false | _ :: _ => true end.

Definition opt_truthy (o : option pystr) : bool :=
  match o with Some s => str_truthy s | None => false end.

(** [HumanMessage] and [AIMessage] of [langchain_core.messages]; only their
    class and [content] are used. *)
Inductive Message :=
  | HumanMessage (content : pystr)
  | AIMessage (content : pystr).

Global Instance Message_eq_dec : EqDecision Message.
Proof. solve_decision. Defined.

(** [str(uuid.uuid4())]: the 128-bit value [n] printed as 32 lower-case
    hexadecimal digits, grouped 8-4-4-4-12. *)
Definition hex_digit (d : N) : codepoint :=
  if (d <? 10)%N then (48 + d)%N else (87 + d)%N.

Fixpoint hex (width : nat) (n : N) : pystr :=
  match width with
  | O => []
  | S w => hex w (n / 16)%N ++ [hex_digit (n mod 16)%N]
  end.

Definition str_uuid (n : N) : pystr :=
  let h := hex 32 n in
  take 8 h ++ lit "-" ++ take 4 (drop 8 h) ++ lit "-" ++ take 4 (drop 12 h)
    ++ lit "-" ++ take 4 (drop 16 h) ++ lit "-" ++ drop 20 h.

(** ** Session state *)

Definition loc := nat.

(** An entry of [st.session_state.chat_history]: the dict with keys
    [id], [title], [messages], [thread_id], [count], [timestamp]. *)
Module Chat.

Record t := mk {
  id : pystr;
  title : pystr;
  messages : loc;
  thread_id : option pystr;
  count : nat;
  timestamp : Q
}.

(** Lines 89-91: the three keys a save overwrites. *)
Definition update (m : loc) (tid : option pystr) (n : nat) (c : t) : t :=
  {| id := id c; title := title c; messages := m; thread_id := tid;
     count := n; timestamp := timestamp c |}.

End Chat.

(** One call of [query_rag]: the question and the [thread_id] query
    parameter (sent only when the argument is truthy). *)
Record Request := mkRequest {
  question : pystr;
  params_thread_id : option pystr
}.

(** [st.session_state], the list objects, and the log of requests sent to
    the query service. *)
Record State := mkState {
  messages : loc;
  thread_id : option pystr;
  conversation_count : nat;
  chat_history : list Chat.t;
  active_chat_id : option pystr;
  heap : gmap loc (list Message);
  requests : list Request
}.

Definition deref (h : gmap loc (list Message)) (l : loc) : list Message :=
  default [] (h !! l).

(** The contents of the working list and of a saved chat's list. *)
Definition working (s : State) : list Message := deref (heap s) (messages s).
Definition stored (s : State) (c : Chat.t) : list Message :=
  deref (heap s) (Chat.messages c).

(** What the sidebar and a later load can observe of the saved chats. *)
Definition saved_threads (s : State)
  : list (pystr * pystr * list Message * option pystr * nat) :=
  (λ c, (Chat.id c, Chat.title c, stored s c, Chat.thread_id c, Chat.count c))
    <$> chat_history s.

Definition chat_ids (s : State) : list pystr := Chat.id <$> chat_history s.

(** Lines 23-32: a new session. *)
Definition init : State :=
  {| messages := 0; thread_id := None; conversation_count := 0;
     chat_history := []; active_chat_id := None;
     heap := {[ 0 := [] ]}; requests := [] |}.

(** ** List objects *)

Definition new_loc (h : gmap loc (list Message)) : loc := fresh (dom h).

(** [l.append(m)] *)
Definition list_append (l : loc) (m : Message) (h : gmap loc (list Message))
  : gmap loc (list Message) :=
  <[ l := deref h l ++ [m] ]> h.

(** ** New Chat button (lines 73-111) *)

(** Lines 76-80: content of the first [HumanMessage]. *)
Fixpoint first_message (msgs : list Message) : option pystr :=
  match msgs with
  | [] => None
  | HumanMessage c :: _ => Some c
  | AIMessage _ :: rest => first_message rest
  end.

(** Line 82. *)
Definition chat_title (first_message : option pystr) : pystr :=
  match first_message with
  | Some c =>
      if str_truthy c && (50 <? length c) then take 50 c ++ lit "..."
      else if str_truthy c then c else lit "New Chat"
  | None => lit "New Chat"
  end.

(** Lines 87-93: the loop over [chat_history]; [None] when no chat has the
    active id ([chat_exists] stays [False]). *)
Fixpoint update_existing (aid : pystr) (m : loc) (tid : option pystr)
    (n : nat) (hist : list Chat.t) : option (list Chat.t) :=
  match hist with
  | [] => None
  | chat :: rest =>
      if decide (Chat.id chat = aid) then Some (Chat.update m tid n chat :: rest)
      else (chat ::.) <$> update_existing aid m tid n rest
  end.

(** Lines 75-104: save the current chat if it has messages.  [u] is the
    value of [uuid.uuid4()] and [now] that of [time.time()]. *)
Definition save_current_chat (u : N) (now : Q) (s : State) : State :=
  match working s with
  | [] => s
  | _ :: _ =>
      let title := chat_title (first_message (working s)) in
      let copy := new_loc (heap s) in
      let heap' := <[ copy := working s ]> (heap s) in
      let updated :=
        match active_chat_id s with
        | Some aid =>
            if str_truthy aid
            then update_existing aid copy (thread_id s) (conversation_count s)
                   (chat_history s)
            else None
        | None => None
        end in
      let history' :=
        match updated with
        | Some hist => hist
        | None =>
            Chat.mk (str_uuid u) title copy (thread_id s)
              (conversation_count s) now :: chat_history s
        end in
      {| messages := messages s; thread_id := thread_id s;
         conversation_count := conversation_count s;
         chat_history := history'; active_chat_id := active_chat_id s;
         heap := heap'; requests := requests s |}
  end.

(** Lines 107-110, and again 141-144 and 166-169. *)
Definition reset_current_chat (s : State) : State :=
  let empty := new_loc (heap s) in
  {| messages := empty; thread_id := None; conversation_count := 0;
     chat_history := chat_history s; active_chat_id := None;
     heap := <[ empty := [] ]> (heap s); requests := requests s |}.

Definition new_chat (u : N) (now : Q) (s : State) : State :=
  reset_current_chat (save_current_chat u now s).

(** ** Chat history buttons (lines 118-145) *)

(** The row whose widget key carries [id]: the first chat with that id and
    its index in [enumerate(chat_history)]. *)
Definition find_chat (id : pystr) (hist : list Chat.t) : option (nat * Chat.t) :=
  list_find (λ c, Chat.id c = id) hist.

(** Lines 130-133. *)
Definition load_row (chat : Chat.t) (s : State) : State :=
  let copy := new_loc (heap s) in
  {| messages := copy; thread_id := Chat.thread_id chat;
     conversation_count := Chat.count chat;
     chat_history := chat_history s; active_chat_id := Some (Chat.id chat);
     heap := <[ copy := stored s chat ]> (heap s); requests := requests s |}.

(** Lines 139-144. *)
Definition delete_row (idx : nat) (chat : Chat.t) (s : State) : State :=
  let s' :=
    {| messages := messages s; thread_id := thread_id s;
       conversation_count := conversation_count s;
       chat_history := delete idx (chat_history s);
       active_chat_id := active_chat_id s;
       heap := heap s; requests := requests s |} in
  if decide (active_chat_id s = Some (Chat.id chat))
  then reset_current_chat s' else s'.

(** A click on the button with key [chat_<id>] or [del_<id>]; with no such
    row there is no button and nothing runs. *)
Definition load_chat (id : pystr) (s : State) : State :=
  match find_chat id (chat_history s) with
  | Some (_, chat) => load_row chat s
  | None => s
  end.

Definition delete_chat (id : pystr) (s : State) : State :=
  match find_chat id (chat_history s) with
  | Some (idx, chat) => delete_row idx chat s
  | None => s
  end.

(** ** Clear Current Chat button (lines 164-170); shown only while the
    current chat has messages. *)
Definition clear_current_chat (s : State) : State :=
  match working s with
  | [] => s
  | _ :: _ => reset_current_chat s
  end.

(** ** Chat input (lines 184-256) *)

(** The JSON object returned by the query service, read with
    [result.get]: each key may be missing; [thread_id] may also be
    present with the value [null].  A confidence is a JSON number (an
    [int] or a finite [float]), compared exactly with [8] and [6]. *)
Module Result.

Record t := mk {
  answer : option pystr;
  confidence : option Q;
  thread_id : option (option pystr)
}.

End Result.

(** What the [try] block meets: a result, together with the value [u] of
    [uuid.uuid4()], or an exception, raised by [query_rag] or while the
    answer is formatted; both [except] clauses only report it. *)
Inductive Outcome :=
  | Ok (result : Result.t) (u : N)
  | Failed.

(** Lines 217-225: the emoji and the text of the confidence indicator. *)
Definition confidence_emoji (confidence : Q) : pystr :=
  if Qle_bool 8 confidence then [128994%N]
  else if Qle_bool 6 confidence then [128993%N]
  else [128308%N].

Definition confidence_text (confidence : Q) : pystr :=
  if Qle_bool 8 confidence then lit "High"
  else if Qle_bool 6 confidence then lit "Medium"
  else lit "Low".

(** Lines 35-54: [query_rag] sends the question, and the thread id only
    when it is truthy. *)
Definition query_rag (question : pystr) (thread_id : option pystr) : Request :=
  {| question := question;
     params_thread_id := if opt_truthy thread_id then thread_id else None |}.

(** A stand-in for the formatter, to run the session on examples. *)
Definition sample_1f (confidence : Q) : pystr := lit "0.0".

Section Session.

(** Python's format specification [.1f], applied to the confidence. *)
Variable format_1f : Q → pystr.

(** Lines 210-227. *)
Definition full_response (result : Result.t) : pystr :=
  let answer := default (lit "No answer received") (Result.answer result) in
  let confidence := default 0%Q (Result.confidence result) in
  answer ++ [10%N; 10%N] ++ lit "*Confidence: " ++ confidence_emoji confidence
    ++ lit " " ++ confidence_text confidence ++ lit " ("
    ++ format_1f confidence ++ lit "/10)*".

(** Lines 186-203: the user message is appended and the request sent. *)
Definition send_question (prompt : pystr) (s : State) : State :=
  {| messages := messages s; thread_id := thread_id s;
     conversation_count := conversation_count s;
     chat_history := chat_history s; active_chat_id := active_chat_id s;
     heap := list_append (messages s) (HumanMessage prompt) (heap s);
     requests := requests s ++ [query_rag prompt (thread_id s)] |}.

(** Lines 241-249: the updates after a result was received. *)
Definition receive_result (result : Result.t) (u : N) (s : State) : State :=
  {| messages := messages s;
     thread_id :=
       if opt_truthy (thread_id s) then thread_id s
       else default (Some (str_uuid u)) (Result.thread_id result);
     conversation_count := conversation_count s + 1;
     chat_history := chat_history s; active_chat_id := active_chat_id s;
     heap := list_append (messages s) (AIMessage (full_response result)) (heap s);
     requests := requests s |}.

(** [st.chat_input] returns [None] unless the user submitted text; the
    walrus guard of line 184 also skips the empty string. *)
Definition chat_input (prompt : option pystr) (o : Outcome) (s : State) : State :=
  if opt_truthy prompt then
    let s1 := send_question (default [] prompt) s in
    match o with
    | Ok result u => receive_result result u s1
    | Failed => s1
    end
  else s.

(** ** The session as a state machine: one widget event per script run *)

Inductive Event :=
  | NewChat (u : N) (now : Q)
  | LoadChat (id : pystr)
  | DeleteChat (id : pystr)
  | ClearChat
  | ChatInput (prompt : option pystr) (o : Outcome).

Definition step (e : Event) (s : State) : State :=
  match e with
  | NewChat u now => new_chat u now s
  | LoadChat id => load_chat id s
  | DeleteChat id => delete_chat id s
  | ClearChat => clear_current_chat s
  | ChatInput prompt o => chat_input prompt o s
  end.

Fixpoint run (evs : list Event) (s : State) : State :=
  match evs with
  | [] => s
  | e :: rest => run rest (step e s)
  end.

(** ** Notions used by the statements *)

(** A sequence of submits, each with the outcome of its call. *)
Definition submits (inputs : list (option pystr * Outcome)) : list Event :=
  (λ i, ChatInput i.1 i.2) <$> inputs.

(** Submits that reached the service and returned, resp. raised. *)
Definition succeeded (i : option pystr * Outcome) : bool :=
  opt_truthy i.1 && match i.2 with Ok _ _ => true | Failed => false end.

Definition failed (i : option pystr * Outcome) : bool :=
  opt_truthy i.1 && match i.2 with Ok _ _ => false | Failed => true end.

Fixpoint count_if {A} (f : A → bool) (l : list A) : nat :=
  match l with
  | [] => 0
  | x :: rest => (if f x then 1 else 0) + count_if f rest
  end.

(** User messages of a transcript that no assistant message answers. *)
Fixpoint unanswered (msgs : list Message) : nat :=
  match msgs with
  | [] => 0
  | AIMessage _ :: rest => unanswered rest
  | HumanMessage _ :: rest =>
      match rest with
      | AIMessage _ :: _ => unanswered rest
      | _ => S (unanswered rest)
      end
  end.

(** How often a run of submits takes the thread id from falsy to truthy. *)
Fixpoint token_sets (inputs : list (option pystr * Outcome)) (s : State) : nat :=
  match inputs with
  | [] => 0
  | i :: rest =>
      let s' := chat_input i.1 i.2 s in
      (if negb (opt_truthy (thread_id s)) && opt_truthy (thread_id s')
       then 1 else 0) + token_sets rest s'
  end.

(** A question that is empty once whitespace is trimmed: all of its
    characters are whitespace (tab, line feed, vertical tab, form feed,
    carriage return, space). *)
Definition is_space (c : codepoint) : bool :=
  bool_decide (c ∈ [9; 10; 11; 12; 13; 32]%N).

Definition blank (question : pystr) : bool := forallb is_space question.

(** The title as the data model words it: from the content of the first
    message with role user, cut to 50 characters with an ellipsis when
    longer, and "New Chat" without a user message. *)
Definition first_user_content (msgs : list Message) : option pystr :=
  head (omap (λ m, match m with HumanMessage c => Some c | AIMessage _ => None end)
          msgs).

Definition title_spec (msgs : list Message) : pystr :=
  match first_user_content msgs with
  | Some c => if 50 <? length c then take 50 c ++ lit "..." else c
  | None => lit "New Chat"
  end.

(** The flag [chat_exists] after the loop of lines 85-93, and the id under
    which [save_current_chat] stores a non-empty current chat. *)
Definition chat_exists (s : State) : bool :=
  match active_chat_id s with
  | Some aid => str_truthy aid && bool_decide (aid ∈ chat_ids s)
  | None => false
  end.

Definition saved_id (u : N) (s : State) : pystr :=
  if chat_exists s then default [] (active_chat_id s) else str_uuid u.

(** Events that only edit the current chat. *)
Definition edits_working (e : Event) : bool :=
  match e with
  | ChatInput _ _ | ClearChat => true
  | NewChat _ _ | LoadChat _ | DeleteChat _ => false
  end.

(** Every saved chat has messages. *)
Definition saved_nonempty (s : State) : Prop :=
  Forall (λ c, stored s c ≠ []) (chat_history s).

(** The list of every saved chat exists and is not the working list. *)
Definition separated (s : State) : Prop :=
  Forall (λ c, is_Some (heap s !! Chat.messages c)
               ∧ Chat.messages c ≠ messages s) (chat_history s).

(** The lists a session builds: no user message has empty content, and
    a non-empty list begins with a user message. *)
Definition prompt_given (m : Message) : Prop :=
  match m with HumanMessage c => c ≠ [] | AIMessage _ => True end.

Definition starts_with_user (msgs : list Message) : Prop :=
  match msgs with
  | [] | HumanMessage _ :: _ => True
  | AIMessage _ :: _ => False
  end.

Definition transcript (msgs : list Message) : Prop :=
  Forall prompt_given msgs ∧ starts_with_user msgs.

Definition transcripts (s : State) : Prop :=
  map_Forall (λ _ msgs, transcript msgs) (heap s).

(** Every saved chat carries the title of the messages it holds, and the
    chat that is active holds a prefix of the working messages. *)
Definition titled (s : State) : Prop :=
  Forall (λ c, Chat.title c = title_spec (stored s c)) (chat_history s).

Definition continues (s : State) : Prop :=
  ∀ aid i chat,
    active_chat_id s = Some aid →
    find_chat aid (chat_history s) = Some (i, chat) →
    stored s chat `prefix_of` working s.

Definition well_formed (s : State) : Prop :=
  transcripts s ∧ saved_nonempty s ∧ separated s ∧ titled s ∧ continues s.

(** The UUID drawn by an event is not the id of a saved chat; a run in
    which this holds at every step. *)
Definition fresh_uuid (e : Event) (s : State) : Prop :=
  match e with
  | NewChat u _ => str_uuid u ∉ chat_ids s
  | LoadChat _ | DeleteChat _ | ClearChat | ChatInput _ _ => True
  end.

Fixpoint fresh_uuids (evs : list Event) (s : State) : Prop :=
  match evs with
  | [] => True
  | e :: rest => fresh_uuid e s ∧ fresh_uuids rest (step e s)
  end.

(** ** Further notions: turns, counters, requests and order *)

(** The number of assistant messages of a list. *)
Definition answers (msgs : list Message) : nat :=
  count_if (λ m, match m with AIMessage _ => true | HumanMessage _ => false end)
    msgs.

(** Every assistant message comes directly after a user message. *)
Fixpoint answers_follow (after_user : bool) (msgs : list Message) : Prop :=
  match msgs with
  | [] => True
  | HumanMessage _ :: rest => answers_follow true rest
  | AIMessage _ :: rest => after_user = true ∧ answers_follow false rest
  end.

Definition in_turns (msgs : list Message) : Prop := answers_follow false msgs.

Definition turns (s : State) : Prop :=
  map_Forall (λ _ msgs, in_turns msgs) (heap s).

(** The counters count answers, and a thread id is only there after one. *)
Definition counted (s : State) : Prop :=
  conversation_count s = answers (working s)
  ∧ Forall (λ c, Chat.count c = answers (stored s c)) (chat_history s).

Definition answered_threads (s : State) : Prop :=
  (opt_truthy (thread_id s) = true → 1 ≤ conversation_count s)
  ∧ Forall (λ c, opt_truthy (Chat.thread_id c) = true → 1 ≤ Chat.count c)
      (chat_history s).

(** The active chat is a saved chat with messages in the working list;
    ids of saved chats are printed UUIDs. *)
Definition active_saved (s : State) : Prop :=
  ∀ id, active_chat_id s = Some id → id ∈ chat_ids s ∧ working s ≠ [].

Definition uuid_ids (s : State) : Prop :=
  Forall (λ c, ∃ u, Chat.id c = str_uuid u) (chat_history s).

(** Requests carry a question and never an empty thread id. *)
Definition request_ok (r : Request) : Prop :=
  question r ≠ [] ∧ params_thread_id r ≠ Some [].

(** The creation times of the saved chats, and a clock that does not run
    backwards past them. *)
Definition timestamps (s : State) : list Q := Chat.timestamp <$> chat_history s.

Definition newest_first (ts : list Q) : Prop :=
  StronglySorted (λ later earlier, (earlier <= later)%Q) ts.

Definition clock_ok (e : Event) (s : State) : Prop :=
  match e with
  | NewChat _ now => Forall (λ t, (t <= now)%Q) (timestamps s)
  | LoadChat _ | DeleteChat _ | ClearChat | ChatInput _ _ => True
  end.

Fixpoint clock_run (evs : list Event) (s : State) : Prop :=
  match evs with
  | [] => True
  | e :: rest => clock_ok e s ∧ clock_run rest (step e s)
  end.

(** Line 127: the button of the active chat is drawn as "secondary", the
    others as "primary". *)
Inductive ButtonType := primary | secondary.

Global Instance ButtonType_eq_dec : EqDecision ButtonType.
Proof. solve_decision. Defined.

Definition button_type (s : State) (chat : Chat.t) : ButtonType :=
  if decide (Some (Chat.id chat) = active_chat_id s) then secondary else primary.

(** What holds of every state a session reaches. *)
Definition sound (s : State) : Prop :=
  well_formed s ∧ turns s ∧ counted s ∧ answered_threads s
  ∧ active_saved s ∧ uuid_ids s ∧ Forall request_ok (requests s).

(** * Properties *)

(** ** The object store *)

Lemma deref_insert_eq h l v : deref (<[ l := v ]> h) l = v.
Proof. unfold deref. by rewrite lookup_insert_eq. Qed.

Lemma deref_insert_ne h l l' v : l ≠ l' → deref (<[ l := v ]> h) l' = deref h l'.
Proof. intros Hne. unfold deref. by rewrite lookup_insert_ne. Qed.

Lemma new_loc_fresh h : h !! new_loc h = None.
Proof. apply not_elem_of_dom. unfold new_loc. apply (is_fresh (dom h)). Qed.

Lemma deref_new_loc h : deref h (new_loc h) = [].
Proof. unfold deref. by rewrite new_loc_fresh. Qed.

Lemma nonempty_allocated h l : deref h l ≠ [] → l ≠ new_loc h.
Proof. intros Hne ->. by rewrite deref_new_loc in Hne. Qed.

Lemma deref_append h l m : deref (list_append l m h) l = deref h l ++ [m].
Proof. apply deref_insert_eq. Qed.

Lemma deref_append_ne h l l' m : l ≠ l' → deref (list_append l m h) l' = deref h l'.
Proof. apply deref_insert_ne. Qed.

(** ** Chat input *)

Lemma working_send p s : working (send_question p s) = working s ++ [HumanMessage p].
Proof. apply deref_append. Qed.

Lemma working_receive r u s :
  working (receive_result r u s) = working s ++ [AIMessage (full_response r)].
Proof. apply deref_append. Qed.

Lemma chat_input_failed p s :
  p ≠ [] → chat_input (Some p) Failed s = send_question p s.
Proof. destruct p; [intros H; by destruct H | reflexivity]. Qed.

Lemma chat_input_ok p r u s :
  p ≠ [] → chat_input (Some p) (Ok r u) s = receive_result r u (send_question p s).
Proof. destruct p; [intros H; by destruct H | reflexivity]. Qed.

Lemma chat_input_empty o s : chat_input (Some []) o s = s.
Proof. done. Qed.

Lemma chat_input_none o s : chat_input None o s = s.
Proof. done. Qed.

(** C1. When the call of a submit fails, the user message appended before
    the call stays as the last entry of the working messages, no assistant
    message is appended, and the thread id and the conversation count keep
    the values they had before the submit. *)
Theorem submit_failure_keeps_user_message (p : pystr) (s : State) :
  p ≠ [] →
  let s' := step (ChatInput (Some p) Failed) s in
  working s' = working s ++ [HumanMessage p]
  ∧ last (working s') = Some (HumanMessage p)
  ∧ thread_id s' = thread_id s
  ∧ conversation_count s' = conversation_count s
  ∧ active_chat_id s' = active_chat_id s
  ∧ chat_history s' = chat_history s.
Proof.
  intros Hp s'. subst s'. cbn [step]. rewrite chat_input_failed by done.
  rewrite working_send, last_snoc. done.
Qed.

(** C7, as the code has it.  The guard of the chat input is Python
    truthiness: with no submitted text or with the empty string nothing
    runs, so no message is appended, no request is sent and the state is
    unchanged.  The text is not trimmed: any non-empty question, also one
    of whitespace only, is appended and sent. *)
Theorem empty_question_is_noop (o : Outcome) (s : State) :
  step (ChatInput None o) s = s
  ∧ step (ChatInput (Some []) o) s = s
  ∧ ∀ p, p ≠ [] →
      working (step (ChatInput (Some p) o) s) ≠ working s
      ∧ requests (step (ChatInput (Some p) o) s)
        = requests s ++ [query_rag p (thread_id s)]
      ∧ working (step (ChatInput (Some p) o) s)
        = working s ++
            HumanMessage p ::
              match o with
              | Ok r _ => [AIMessage (full_response r)]
              | Failed => []
              end.
Proof.
  split; [done|]. split; [done|].
  intros p Hp. destruct o as [r u|]; cbn [step].
  - rewrite chat_input_ok by done. rewrite working_receive, working_send.
    split; [|split; [done | by rewrite <- app_assoc]].
    intros Heq. apply (f_equal length) in Heq.
    rewrite !length_app in Heq. simpl in Heq. lia.
  - rewrite chat_input_failed by done. rewrite working_send.
    split; [|done]. intros Heq. apply (f_equal length) in Heq.
    rewrite length_app in Heq. simpl in Heq. lia.
Qed.

(** ** Confidence annotation *)

Lemma Qle_bool_false (x y : Q) : Qle_bool x y = false ↔ (y < x)%Q.
Proof.
  split.
  - intros Hb. apply Qnot_le_lt. intros Hle.
    apply Qle_bool_iff in Hle. congruence.
  - intros Hlt. destruct (Qle_bool x y) eqn:Hb; [|done].
    apply Qle_bool_iff in Hb. by apply Qlt_not_le in Hlt.
Qed.

Lemma confidence_text_cases (c : Q) :
  ((8 <= c)%Q ∧ confidence_text c = lit "High")
  ∨ ((6 <= c)%Q ∧ (c < 8)%Q ∧ confidence_text c = lit "Medium")
  ∨ ((c < 6)%Q ∧ confidence_text c = lit "Low").
Proof.
  unfold confidence_text.
  destruct (Qle_bool 8 c) eqn:H8.
  - left. by apply Qle_bool_iff in H8.
  - apply Qle_bool_false in H8. destruct (Qle_bool 6 c) eqn:H6.
    + right; left. by apply Qle_bool_iff in H6.
    + right; right. by apply Qle_bool_false in H6.
Qed.

(** C5. The confidence annotation of a successful submit is "High" iff
    confidence >= 8, "Medium" iff 6 <= confidence < 8 and "Low" iff
    confidence < 6; a result without the confidence key is read as 0 and
    annotated "Low".  The annotation is part of the assistant message the
    submit appends. *)
Theorem confidence_annotation (r : Result.t) :
  let c := default 0%Q (Result.confidence r) in
  (confidence_text c = lit "High" ↔ (8 <= c)%Q)
  ∧ (confidence_text c = lit "Medium" ↔ (6 <= c)%Q ∧ (c < 8)%Q)
  ∧ (confidence_text c = lit "Low" ↔ (c < 6)%Q)
  ∧ (Result.confidence r = None → c = 0%Q ∧ confidence_text c = lit "Low")
  ∧ ∀ p u s, p ≠ [] →
      working (step (ChatInput (Some p) (Ok r u)) s)
      = working s ++
          [HumanMessage p;
           AIMessage
             (default (lit "No answer received") (Result.answer r)
                ++ [10%N; 10%N] ++ lit "*Confidence: " ++ confidence_emoji c
                ++ lit " " ++ confidence_text c ++ lit " ("
                ++ format_1f c ++ lit "/10)*")].
Proof.
  intros c.
  assert (H68 : (6 <= 8)%Q) by (by apply Qle_bool_iff).
  assert (Hlow : ∀ x, (x < 6)%Q → ¬ (8 <= x)%Q).
  { intros x Hlt H8. apply (Qlt_not_le _ _ Hlt). by apply Qle_trans with 8%Q. }
  split; [|split; [|split; [|split]]].
  - destruct (confidence_text_cases c) as [[H8 ->]|[(H6 & Hlt & ->)|[Hlt ->]]].
    + done.
    + split; [discriminate|]. intros H8. by apply Qlt_not_le in Hlt.
    + split; [discriminate|]. intros H8. by apply Hlow in Hlt.
  - destruct (confidence_text_cases c) as [[H8 ->]|[(H6 & Hlt & ->)|[Hlt ->]]].
    + split; [discriminate|]. intros [_ Hlt]. by apply Qlt_not_le in Hlt.
    + done.
    + split; [discriminate|]. intros [H6 _]. by apply Qlt_not_le in Hlt.
  - destruct (confidence_text_cases c) as [[H8 ->]|[(H6 & Hlt & ->)|[Hlt ->]]].
    + split; [discriminate|]. intros Hlt. by apply Hlow in Hlt.
    + split; [discriminate|]. intros Hlt6. by apply Qlt_not_le in Hlt6.
    + done.
  - intros Hnone. subst c. by rewrite Hnone.
  - intros p u s Hp. cbn [step]. rewrite chat_input_ok by done.
    rewrite working_receive, working_send, <- app_assoc. done.
Qed.

(** ** Runs of submits *)

Lemma unanswered_snoc_human msgs p :
  unanswered (msgs ++ [HumanMessage p]) = S (unanswered msgs).
Proof.
  induction msgs as [|m rest IH]; [done|].
  destruct m as [c|c]; [|exact IH].
  cbn [app unanswered]. rewrite IH.
  destruct rest as [|[c'|c'] rest']; reflexivity.
Qed.

Lemma unanswered_snoc_answered msgs p a :
  unanswered (msgs ++ [HumanMessage p; AIMessage a]) = unanswered msgs.
Proof.
  induction msgs as [|m rest IH]; [done|].
  destruct m as [c|c]; [|exact IH].
  cbn [app unanswered]. rewrite IH.
  destruct rest as [|[c'|c'] rest']; reflexivity.
Qed.

Lemma run_submits_cons i inputs s :
  run (submits (i :: inputs)) s = run (submits inputs) (chat_input i.1 i.2 s).
Proof. done. Qed.

Lemma working_chat_input prompt o s :
  working (chat_input prompt o s)
  = working s ++
      (if opt_truthy prompt then
         HumanMessage (default [] prompt) ::
           match o with
           | Ok r _ => [AIMessage (full_response r)]
           | Failed => []
           end
       else []).
Proof.
  unfold chat_input. destruct (opt_truthy prompt); [|by rewrite app_nil_r].
  destruct o as [r u|].
  - by rewrite working_receive, working_send, <- app_assoc.
  - by rewrite working_send.
Qed.

Lemma run_submits_counts inputs s :
  let s' := run (submits inputs) s in
  length (working s')
    = length (working s) + 2 * count_if succeeded inputs + count_if failed inputs
  ∧ unanswered (working s') = unanswered (working s) + count_if failed inputs.
Proof.
  revert s. induction inputs as [|[prompt o] inputs IH]; intros s.
  - simpl. split; lia.
  - cbn zeta. rewrite run_submits_cons.
    destruct (IH (chat_input prompt o s)) as [Hlen Hun].
    cbn zeta in Hlen, Hun. cbn [fst snd] in *. rewrite Hlen, Hun.
    rewrite working_chat_input. cbn [count_if]. unfold succeeded, failed.
    cbn [fst snd]. destruct (opt_truthy prompt); cbn [andb].
    + destruct o as [r u|].
      * rewrite unanswered_snoc_answered, length_app. simpl. lia.
      * rewrite unanswered_snoc_human, length_app. simpl. lia.
    + rewrite app_nil_r. lia.
Qed.

(** C2, as the code has it.  After any sequence of submits on a working
    thread that started empty, the number of working messages is twice the
    number of successful submits plus the number of unanswered user
    messages, and the latter is the number of failed submits: every failed
    submit leaves its user message behind, so it is 0 or 1 only as long as
    at most one submit has failed. *)
Theorem working_length_of_submits (inputs : list (option pystr * Outcome))
    (s : State) :
  working s = [] →
  let s' := run (submits inputs) s in
  length (working s')
    = 2 * count_if succeeded inputs + unanswered (working s')
  ∧ unanswered (working s') = count_if failed inputs.
Proof.
  intros Hempty s'. destruct (run_submits_counts inputs s) as [Hlen Hun].
  fold s' in Hlen, Hun. rewrite Hempty in Hlen, Hun. simpl in Hlen, Hun.
  split; lia.
Qed.

(** ** The thread id *)

Lemma str_uuid_truthy u : str_truthy (str_uuid u) = true.
Proof. unfold str_uuid. by destruct (take 8 (hex 32 u)). Qed.

Lemma thread_id_kept prompt o s :
  opt_truthy (thread_id s) = true → thread_id (chat_input prompt o s) = thread_id s.
Proof.
  intros Ht. unfold chat_input. destruct (opt_truthy prompt); [|done].
  destruct o as [r u|]; [|done]. cbn. by rewrite Ht.
Qed.

Lemma token_sets_kept inputs s :
  opt_truthy (thread_id s) = true → token_sets inputs s = 0.
Proof.
  revert s. induction inputs as [|[prompt o] inputs IH]; intros s Ht; [done|].
  cbn [token_sets fst snd]. rewrite Ht. cbn [negb andb].
  rewrite IH; [done|]. by rewrite thread_id_kept.
Qed.

Lemma token_sets_le_1 inputs s : token_sets inputs s ≤ 1.
Proof.
  revert s. induction inputs as [|[prompt o] inputs IH]; intros s; [simpl; lia|].
  cbn [token_sets fst snd].
  destruct (negb (opt_truthy (thread_id s))
            && opt_truthy (thread_id (chat_input prompt o s))) eqn:Hset.
  - apply andb_true_iff in Hset as [_ Hnow].
    rewrite token_sets_kept by done. lia.
  - specialize (IH (chat_input prompt o s)). lia.
Qed.

Lemma working_reset s : working (reset_current_chat s) = [].
Proof. apply deref_insert_eq. Qed.

(** X19. A thread id that is present, that is, a non-empty string, is
    kept by every submit, and a failed submit never changes the thread id.
    A successful submit on a thread without one stores a synthesized UUID,
    which is non-empty, when the result has no [thread_id] key, and the
    result's thread id when that is a non-empty string.  Over any run of
    submits the thread id becomes present at most once.  A present thread
    id is lost only when the working messages are emptied with it (new
    chat, clear, delete of the active chat) or when a saved chat is loaded,
    the active one included: then the messages and the thread id stored
    with that chat replace the working ones. *)
Theorem present_thread_id_is_kept :
  (∀ prompt o s, opt_truthy (thread_id s) = true →
     thread_id (step (ChatInput prompt o) s) = thread_id s)
  ∧ (∀ prompt s, thread_id (step (ChatInput prompt Failed) s) = thread_id s)
  ∧ (∀ p r u s, p ≠ [] → opt_truthy (thread_id s) = false →
       Result.thread_id r = None →
       thread_id (step (ChatInput (Some p) (Ok r u)) s) = Some (str_uuid u)
       ∧ opt_truthy (Some (str_uuid u)) = true)
  ∧ (∀ p r u s t, p ≠ [] → opt_truthy (thread_id s) = false →
       Result.thread_id r = Some (Some t) → t ≠ [] →
       thread_id (step (ChatInput (Some p) (Ok r u)) s) = Some t)
  ∧ (∀ inputs s, token_sets inputs s ≤ 1)
  ∧ (∀ e s, opt_truthy (thread_id s) = true →
       opt_truthy (thread_id (step e s)) = false →
       working (step e s) = []
       ∨ ∃ id i chat, e = LoadChat id
           ∧ find_chat id (chat_history s) = Some (i, chat)
           ∧ thread_id (step e s) = Chat.thread_id chat
           ∧ working (step e s) = stored s chat).
Proof.
  split; [exact thread_id_kept|]. split.
  { intros prompt s. cbn [step]. unfold chat_input. by destruct (opt_truthy prompt). }
  assert (Hset : ∀ p r u s, p ≠ [] → opt_truthy (thread_id s) = false →
            thread_id (step (ChatInput (Some p) (Ok r u)) s)
            = default (Some (str_uuid u)) (Result.thread_id r)).
  { intros p r u s Hp Hf. cbn [step]. rewrite chat_input_ok by done.
    cbn. by rewrite Hf. }
  split.
  { intros p r u s Hp Hf Hkey. rewrite Hset, Hkey by done.
    split; [done | apply str_uuid_truthy]. }
  split.
  { intros p r u s t Hp Hf Hkey Ht. by rewrite Hset, Hkey by done. }
  split; [exact token_sets_le_1|].
  intros e s Ht Hf. destruct e as [u now|id|id| |prompt o]; cbn [step] in *.
  - left. apply working_reset.
  - right. unfold load_chat in *.
    destruct (find_chat id (chat_history s)) as [[idx chat]|] eqn:Hfind;
      [|congruence].
    exists id, idx, chat. split; [done|]. split; [done|]. split; [done|].
    apply deref_insert_eq.
  - left. unfold delete_chat in *.
    destruct (find_chat id (chat_history s)) as [[idx chat]|]; [|congruence].
    unfold delete_row in *.
    destruct (decide (active_chat_id s = Some (Chat.id chat)));
      [apply working_reset | cbn in Hf; congruence].
  - left. unfold clear_current_chat in *.
    destruct (working s) eqn:Hw; [congruence | apply working_reset].
  - rewrite thread_id_kept in Hf by done. congruence.
Qed.

(** ** Invariants of the state machine *)

Lemma run_app evs1 evs2 s : run (evs1 ++ evs2) s = run evs2 (run evs1 s).
Proof. revert s. induction evs1 as [|e evs1 IH]; intros s; [done|]. apply IH. Qed.

Lemma run_invariant (P : State → Prop) :
  (∀ e s, P s → P (step e s)) → ∀ evs s, P s → P (run evs s).
Proof.
  intros Hstep evs. induction evs as [|e evs IH]; intros s Hs; [done|].
  apply IH, Hstep, Hs.
Qed.

Lemma transcript_nil : transcript [].
Proof. split; [constructor | exact I]. Qed.

Lemma transcript_snoc_human msgs p :
  transcript msgs → p ≠ [] → transcript (msgs ++ [HumanMessage p]).
Proof.
  intros [Hgiven Hstart] Hp. split.
  - apply Forall_app. split; [done|]. by repeat constructor.
  - by destruct msgs.
Qed.

Lemma transcript_snoc_answer msgs p a :
  transcript (msgs ++ [HumanMessage p]) →
  transcript ((msgs ++ [HumanMessage p]) ++ [AIMessage a]).
Proof.
  intros [Hgiven Hstart]. split.
  - apply Forall_app. split; [done|]. by repeat constructor.
  - by destruct msgs.
Qed.

Lemma transcripts_insert s l msgs :
  transcripts s → transcript msgs →
  map_Forall (λ _ msgs, transcript msgs) (<[ l := msgs ]> (heap s)).
Proof. intros Hs Hm. by apply map_Forall_insert_2. Qed.

Lemma transcripts_deref s l : transcripts s → transcript (deref (heap s) l).
Proof.
  intros Hs. unfold deref.
  destruct (heap s !! l) as [msgs|] eqn:Hl; [|exact transcript_nil].
  exact (Hs l msgs Hl).
Qed.

Lemma transcripts_reset s : transcripts s → transcripts (reset_current_chat s).
Proof. intros Hs. apply transcripts_insert; [done | exact transcript_nil]. Qed.

Lemma transcripts_save u now s :
  transcripts s → transcripts (save_current_chat u now s).
Proof.
  intros Hs. unfold save_current_chat. destruct (working s) eqn:Hw; [done|].
  apply transcripts_insert; [done|]. rewrite <- Hw.
  by apply transcripts_deref.
Qed.

Lemma transcripts_step e s : transcripts s → transcripts (step e s).
Proof.
  intros Hs. destruct e as [u now|id|id| |prompt o]; cbn [step].
  - by apply transcripts_reset, transcripts_save.
  - unfold load_chat. destruct (find_chat id (chat_history s)) as [[idx chat]|]; [|done].
    apply transcripts_insert; [done|]. by apply transcripts_deref.
  - unfold delete_chat. destruct (find_chat id (chat_history s)) as [[idx chat]|]; [|done].
    unfold delete_row. case_decide; [|done]. by apply transcripts_reset.
  - unfold clear_current_chat. destruct (working s); [done|].
    by apply transcripts_reset.
  - unfold chat_input. destruct prompt as [[|c p]|]; cbn [opt_truthy str_truthy]; try done.
    change (default [] (Some (c :: p))) with (c :: p).
    assert (Hasked : transcript (working s ++ [HumanMessage (c :: p)])).
    { apply transcript_snoc_human; [by apply transcripts_deref | done]. }
    assert (Hsend : transcripts (send_question (c :: p) s)).
    { by apply transcripts_insert. }
    destruct o as [r u|]; [|done].
    apply transcripts_insert; [done|].
    fold (working (send_question (c :: p) s)).
    rewrite working_send. by apply transcript_snoc_answer.
Qed.

Lemma transcripts_init : transcripts init.
Proof.
  intros l msgs Hl. cbn [init heap] in Hl.
  apply lookup_singleton_Some in Hl as [_ <-]. exact transcript_nil.
Qed.

Lemma transcripts_run evs : transcripts (run evs init).
Proof. apply run_invariant; [exact transcripts_step | exact transcripts_init]. Qed.

(** ** Titles *)

Lemma first_message_spec msgs : first_message msgs = first_user_content msgs.
Proof.
  unfold first_user_content.
  induction msgs as [|[c|c] rest IH]; [done | done | exact IH].
Qed.

Lemma first_message_given msgs c :
  Forall prompt_given msgs → first_message msgs = Some c → c ≠ [].
Proof.
  induction 1 as [|[c'|c'] rest Hm _ IH]; simpl; [done | | exact IH].
  intros [= ->]. exact Hm.
Qed.

Lemma chat_title_spec msgs :
  Forall prompt_given msgs → chat_title (first_message msgs) = title_spec msgs.
Proof.
  intros Hm. unfold title_spec. rewrite <- first_message_spec.
  destruct (first_message msgs) as [c|] eqn:Hfirst; [|done].
  apply (first_message_given _ _ Hm) in Hfirst.
  unfold chat_title. destruct c; [done|]. reflexivity.
Qed.

(** ** Saving the current chat *)

Lemma update_existing_None aid m tid n hist :
  aid ∉ Chat.id <$> hist → update_existing aid m tid n hist = None.
Proof.
  induction hist as [|chat rest IH]; [done|]. intros Hnot.
  cbn [update_existing]. rewrite fmap_cons in Hnot.
  apply not_elem_of_cons in Hnot as [Hne Hrest].
  rewrite decide_False by done. by rewrite IH.
Qed.

Lemma update_existing_Some aid m tid n hist :
  aid ∈ Chat.id <$> hist →
  ∃ i old, find_chat aid hist = Some (i, old)
    ∧ update_existing aid m tid n hist = Some (<[ i := Chat.update m tid n old ]> hist).
Proof.
  unfold find_chat. induction hist as [|chat rest IH]; intros Hin.
  { by apply elem_of_nil in Hin. }
  cbn [update_existing list_find]. destruct (decide (Chat.id chat = aid)) as [Heq|Hne].
  - by exists 0, chat.
  - rewrite fmap_cons in Hin. apply elem_of_cons in Hin as [Heq|Hin]; [done|].
    destruct (IH Hin) as (i & old & Hfind & Hup).
    exists (S i), old. by rewrite Hfind, Hup.
Qed.

Lemma find_chat_insert aid i old chat hist :
  find_chat aid hist = Some (i, old) → Chat.id chat = aid →
  find_chat aid (<[ i := chat ]> hist) = Some (i, chat).
Proof.
  unfold find_chat. intros Hfind Hid.
  apply list_find_Some in Hfind as (Hl & _ & Hbefore).
  apply list_find_Some. split; [|split; [done|]].
  - apply list_lookup_insert_eq. by apply lookup_lt_Some in Hl.
  - intros j y Hj Hlt. rewrite list_lookup_insert_ne in Hj by lia.
    by apply (Hbefore j).
Qed.

Lemma chat_exists_true s :
  chat_exists s = true →
  ∃ aid, active_chat_id s = Some aid ∧ str_truthy aid = true ∧ aid ∈ chat_ids s.
Proof.
  unfold chat_exists. destruct (active_chat_id s) as [aid|]; [|done].
  intros [Ht Hin%bool_decide_eq_true]%andb_true_iff. by exists aid.
Qed.

(** What [save_current_chat] leaves in the session when there are
    messages to save. *)
Lemma save_current_chat_fields u now s :
  working s ≠ [] →
  let s1 := save_current_chat u now s in
  messages s1 = messages s ∧ thread_id s1 = thread_id s
  ∧ conversation_count s1 = conversation_count s
  ∧ active_chat_id s1 = active_chat_id s ∧ requests s1 = requests s
  ∧ heap s1 = <[ new_loc (heap s) := working s ]> (heap s).
Proof.
  intros Hw. unfold save_current_chat. by destruct (working s).
Qed.

Lemma save_current_chat_history u now s :
  working s ≠ [] →
  let s1 := save_current_chat u now s in
  (chat_exists s = false
   ∧ chat_history s1
     = Chat.mk (str_uuid u) (chat_title (first_message (working s)))
         (new_loc (heap s)) (thread_id s) (conversation_count s) now
         :: chat_history s)
  ∨ (chat_exists s = true
     ∧ ∃ aid i old, active_chat_id s = Some aid
         ∧ find_chat aid (chat_history s) = Some (i, old)
         ∧ chat_history s1
           = <[ i := Chat.update (new_loc (heap s)) (thread_id s)
                       (conversation_count s) old ]> (chat_history s)).
Proof.
  intros Hw. unfold save_current_chat.
  destruct (working s) as [|m rest] eqn:Hws; [done|]. cbn zeta. cbn [chat_history].
  destruct (chat_exists s) eqn:Hex.
  - right. split; [done|].
    destruct (chat_exists_true s Hex) as (aid & Hact & Ht & Hin).
    destruct (update_existing_Some aid (new_loc (heap s)) (thread_id s)
                (conversation_count s) (chat_history s) Hin)
      as (i & old & Hfind & Hup).
    exists aid, i, old. rewrite Hact, Ht, Hup. done.
  - left. split; [done|]. unfold chat_exists in Hex.
    destruct (active_chat_id s) as [aid|]; [|done].
    destruct (str_truthy aid); [|done]. cbn [andb] in Hex.
    apply bool_decide_eq_false in Hex.
    by rewrite update_existing_None.
Qed.

(** The saved chat can be found under [saved_id], and holds a copy of the
    working messages with the thread id and the count. *)
Lemma save_current_chat_found u now s :
  working s ≠ [] →
  let s1 := save_current_chat u now s in
  ∃ i chat, find_chat (saved_id u s) (chat_history s1) = Some (i, chat)
    ∧ Chat.id chat = saved_id u s
    ∧ Chat.messages chat = new_loc (heap s)
    ∧ Chat.thread_id chat = thread_id s
    ∧ Chat.count chat = conversation_count s.
Proof.
  intros Hw s1. unfold saved_id.
  destruct (save_current_chat_history u now s Hw)
    as [[Hex Hhist]|(Hex & aid & i & old & Hact & Hfind & Hhist)];
    fold s1 in Hhist; rewrite Hex, Hhist.
  - eexists 0, _. split.
    + unfold find_chat. cbn [list_find]. rewrite decide_True by done. reflexivity.
    + done.
  - rewrite Hact. cbn [default].
    assert (Hid : Chat.id old = aid).
    { unfold find_chat in Hfind. by apply list_find_Some in Hfind as (_ & ? & _). }
    eexists i, _. split; [by apply (find_chat_insert aid i old) | done].
Qed.

(** ** Saved chats and the object store *)

Lemma deref_alloc h v l :
  is_Some (h !! l) → deref (<[ new_loc h := v ]> h) l = deref h l.
Proof.
  intros [msgs Hl]. apply deref_insert_ne. intros Heq.
  rewrite <- Heq, new_loc_fresh in Hl. done.
Qed.

Lemma nonempty_is_Some h l : deref h l ≠ [] → is_Some (h !! l).
Proof. unfold deref. destruct (h !! l); [eauto | done]. Qed.

Lemma alloc_nonempty h v l : deref h l ≠ [] → deref (<[ new_loc h := v ]> h) l ≠ [].
Proof. intros Hne. by rewrite deref_alloc by by apply nonempty_is_Some. Qed.

Lemma append_nonempty h l0 m l : deref h l ≠ [] → deref (list_append l0 m h) l ≠ [].
Proof.
  intros Hne. destruct (decide (l0 = l)) as [->|Hdiff].
  - rewrite deref_append. by destruct (deref h l).
  - by rewrite deref_append_ne.
Qed.

Lemma is_Some_alloc (h : gmap loc (list Message)) l' v l :
  is_Some (h !! l) → is_Some (<[ l' := v ]> h !! l).
Proof.
  intros Hl. destruct (decide (l' = l)) as [->|Hne].
  - rewrite lookup_insert_eq. eauto.
  - by rewrite lookup_insert_ne.
Qed.

(** States with the same saved chats whose lists were not emptied. *)
Lemma saved_nonempty_mono s s' :
  chat_history s' = chat_history s →
  (∀ l, deref (heap s) l ≠ [] → deref (heap s') l ≠ []) →
  saved_nonempty s → saved_nonempty s'.
Proof.
  unfold saved_nonempty, stored. intros -> Hmono Hs.
  eapply Forall_impl; [exact Hs|]. intros c Hc. by apply Hmono.
Qed.

Lemma saved_nonempty_reset s : saved_nonempty s → saved_nonempty (reset_current_chat s).
Proof. apply saved_nonempty_mono; [done|]. intros l. apply alloc_nonempty. Qed.

Lemma saved_nonempty_save u now s :
  saved_nonempty s → saved_nonempty (save_current_chat u now s).
Proof.
  intros Hs. destruct (working s) as [|m rest] eqn:Hws.
  { unfold save_current_chat. by rewrite Hws. }
  assert (Hw : working s ≠ []) by (by rewrite Hws).
  destruct (save_current_chat_fields u now s Hw) as (_ & _ & _ & _ & _ & Hheap).
  assert (Hold : Forall (λ c, stored (save_current_chat u now s) c ≠ [])
                   (chat_history s)).
  { eapply Forall_impl; [exact Hs|]. intros c Hc. unfold stored.
    rewrite Hheap. by apply alloc_nonempty. }
  assert (Hcopy : deref (heap (save_current_chat u now s)) (new_loc (heap s)) ≠ []).
  { by rewrite Hheap, deref_insert_eq. }
  unfold saved_nonempty.
  destruct (save_current_chat_history u now s Hw)
    as [[_ ->]|(_ & aid & i & old & _ & _ & ->)].
  - by constructor.
  - by apply Forall_insert.
Qed.

Lemma saved_nonempty_chat_input prompt o s :
  saved_nonempty s → saved_nonempty (chat_input prompt o s).
Proof.
  unfold chat_input. destruct (opt_truthy prompt); [|done]. intros Hs.
  assert (Hsend : saved_nonempty (send_question (default [] prompt) s)).
  { revert Hs. apply saved_nonempty_mono; [done|]. intros l. apply append_nonempty. }
  destruct o as [r u|]; [|done].
  revert Hsend. apply saved_nonempty_mono; [done|]. intros l. apply append_nonempty.
Qed.

Lemma saved_nonempty_init : saved_nonempty init.
Proof. constructor. Qed.

Lemma saved_nonempty_step e s : saved_nonempty s → saved_nonempty (step e s).
Proof.
  intros Hs. destruct e as [u now|id|id| |prompt o]; cbn [step].
  - by apply saved_nonempty_reset, saved_nonempty_save.
  - unfold load_chat.
    destruct (find_chat id (chat_history s)) as [[idx chat]|]; [|done].
    revert Hs. apply saved_nonempty_mono; [done|]. intros l. apply alloc_nonempty.
  - unfold delete_chat.
    destruct (find_chat id (chat_history s)) as [[idx chat]|]; [|done].
    unfold delete_row.
    assert (Hdel : saved_nonempty
                     {| messages := messages s; thread_id := thread_id s;
                        conversation_count := conversation_count s;
                        chat_history := delete idx (chat_history s);
                        active_chat_id := active_chat_id s;
                        heap := heap s; requests := requests s |}).
    { unfold saved_nonempty, stored. cbn [chat_history heap].
      by apply Forall_delete. }
    case_decide; [by apply saved_nonempty_reset | done].
  - unfold clear_current_chat. destruct (working s); [done|].
    by apply saved_nonempty_reset.
  - by apply saved_nonempty_chat_input.
Qed.

Lemma saved_nonempty_run evs s : saved_nonempty s → saved_nonempty (run evs s).
Proof. apply run_invariant. exact saved_nonempty_step. Qed.

(** C9. Every saved chat has at least one message: this holds in every
    state a session can reach, and each operation (new chat with its save,
    load, delete, clear, submit) preserves it; the save itself does
    nothing when the working thread is empty, so an empty working thread
    is never stored. *)
Theorem saved_chats_never_empty :
  (∀ evs, saved_nonempty (run evs init))
  ∧ (∀ e s, saved_nonempty s → saved_nonempty (step e s))
  ∧ (∀ u now s, working s = [] →
       save_current_chat u now s = s
       ∧ chat_history (step (NewChat u now) s) = chat_history s).
Proof.
  split; [|split; [exact saved_nonempty_step|]].
  - intros evs. apply saved_nonempty_run, saved_nonempty_init.
  - intros u now s Hw. cbn [step]. unfold new_chat, save_current_chat.
    by rewrite Hw.
Qed.

(** ** Independence of the working copy *)

Lemma saved_threads_ext s s' :
  chat_history s' = chat_history s →
  Forall (λ c, stored s' c = stored s c) (chat_history s) →
  saved_threads s' = saved_threads s.
Proof.
  unfold saved_threads. intros -> Hsame.
  apply list_eq_Forall2, Forall2_fmap, Forall_Forall2_diag.
  eapply Forall_impl; [exact Hsame|]. intros c Hc. by rewrite Hc.
Qed.

Lemma saved_allocated s :
  saved_nonempty s → Forall (λ c, is_Some (heap s !! Chat.messages c)) (chat_history s).
Proof.
  intros Hs. eapply Forall_impl; [exact Hs|]. intros c. apply nonempty_is_Some.
Qed.

(** Binding the working messages to a new list object separates them from
    every saved chat and leaves the saved chats as they were. *)
Lemma rebind_separated s s' v :
  Forall (λ c, is_Some (heap s !! Chat.messages c)) (chat_history s) →
  chat_history s' = chat_history s →
  messages s' = new_loc (heap s) →
  heap s' = <[ new_loc (heap s) := v ]> (heap s) →
  separated s' ∧ saved_threads s' = saved_threads s.
Proof.
  intros Halloc Hhist Hmsgs Hheap. split.
  - unfold separated. rewrite Hhist, Hmsgs, Hheap.
    eapply Forall_impl; [exact Halloc|]. intros c Hc. split.
    + by apply is_Some_alloc.
    + intros Heq. cbn beta in Hc. rewrite Heq, new_loc_fresh in Hc. by destruct Hc.
  - apply saved_threads_ext; [done|].
    eapply Forall_impl; [exact Halloc|]. intros c Hc.
    unfold stored. rewrite Hheap. by apply deref_alloc.
Qed.

Lemma separated_allocated s :
  separated s → Forall (λ c, is_Some (heap s !! Chat.messages c)) (chat_history s).
Proof. intros Hs. eapply Forall_impl; [exact Hs|]. by intros c [? _]. Qed.

Lemma reset_separated s :
  Forall (λ c, is_Some (heap s !! Chat.messages c)) (chat_history s) →
  separated (reset_current_chat s)
  ∧ saved_threads (reset_current_chat s) = saved_threads s.
Proof. intros Halloc. by apply (rebind_separated s _ []). Qed.

Lemma append_separated s s' m :
  separated s →
  chat_history s' = chat_history s →
  messages s' = messages s →
  heap s' = list_append (messages s) m (heap s) →
  separated s' ∧ saved_threads s' = saved_threads s.
Proof.
  intros Hsep Hhist Hmsgs Hheap. split.
  - unfold separated. rewrite Hhist, Hmsgs, Hheap.
    eapply Forall_impl; [exact Hsep|]. intros c [Hc Hne].
    split; [by apply is_Some_alloc | done].
  - apply saved_threads_ext; [done|].
    eapply Forall_impl; [exact Hsep|]. intros c [_ Hne].
    unfold stored. rewrite Hheap. by apply deref_append_ne.
Qed.

Lemma edit_separated e s :
  edits_working e = true → separated s →
  separated (step e s)
  ∧ saved_threads (step e s) = saved_threads s
  ∧ chat_history (step e s) = chat_history s
  ∧ (active_chat_id s = None → active_chat_id (step e s) = None).
Proof.
  intros He Hsep. destruct e as [u now|id|id| |prompt o]; try done; cbn [step].
  - unfold clear_current_chat. destruct (working s); [done|].
    destruct (reset_separated s (separated_allocated s Hsep)) as [? ?]. done.
  - unfold chat_input. destruct (opt_truthy prompt); [|done].
    destruct (append_separated s (send_question (default [] prompt) s)
                (HumanMessage (default [] prompt)) Hsep) as [Hsep1 Hsaved1];
      [done..|].
    destruct o as [r u|]; [|done].
    destruct (append_separated (send_question (default [] prompt) s)
                (receive_result r u (send_question (default [] prompt) s))
                (AIMessage (full_response r)) Hsep1) as [Hsep2 Hsaved2];
      [done..|].
    rewrite Hsaved2. done.
Qed.

Lemma run_edits_separated evs s :
  forallb edits_working evs = true → separated s →
  separated (run evs s)
  ∧ saved_threads (run evs s) = saved_threads s
  ∧ chat_history (run evs s) = chat_history s
  ∧ (active_chat_id s = None → active_chat_id (run evs s) = None).
Proof.
  revert s. induction evs as [|e evs IH]; intros s Hall Hsep; [done|].
  cbn [forallb] in Hall. apply andb_true_iff in Hall as [He Hall].
  destruct (edit_separated e s He Hsep) as (Hsep1 & Hsaved1 & Hhist1 & Hact1).
  destruct (IH (step e s) Hall Hsep1) as (Hsep2 & Hsaved2 & Hhist2 & Hact2).
  cbn [run]. rewrite Hsaved2, Hhist2. repeat split; auto.
Qed.

Lemma submits_edit inputs : forallb edits_working (submits inputs) = true.
Proof. by induction inputs. Qed.

Lemma load_chat_found id i chat s :
  find_chat id (chat_history s) = Some (i, chat) → load_chat id s = load_row chat s.
Proof. intros Hfind. unfold load_chat. by rewrite Hfind. Qed.

Lemma working_load_row chat s : working (load_row chat s) = stored s chat.
Proof. apply deref_insert_eq. Qed.

Lemma load_chat_restores id i chat s :
  find_chat id (chat_history s) = Some (i, chat) →
  let s' := load_chat id s in
  working s' = stored s chat
  ∧ thread_id s' = Chat.thread_id chat
  ∧ conversation_count s' = Chat.count chat
  ∧ active_chat_id s' = Some (Chat.id chat).
Proof.
  intros Hfind s'. subst s'. rewrite (load_chat_found id i chat) by done.
  by rewrite working_load_row.
Qed.

Lemma load_chat_separated id i chat s :
  find_chat id (chat_history s) = Some (i, chat) → saved_nonempty s →
  separated (load_chat id s) ∧ saved_threads (load_chat id s) = saved_threads s.
Proof.
  intros Hfind Hne. rewrite (load_chat_found id i chat) by done.
  apply (rebind_separated s (load_row chat s) (stored s chat)); [|done..].
  by apply saved_allocated.
Qed.

Lemma find_chat_saved id i chat s :
  find_chat id (chat_history s) = Some (i, chat) →
  (Chat.id chat, Chat.title chat, stored s chat, Chat.thread_id chat,
   Chat.count chat) ∈ saved_threads s.
Proof.
  intros Hfind. unfold find_chat in Hfind.
  apply list_find_Some in Hfind as (Hl & _ & _).
  unfold saved_threads. apply list_elem_of_fmap. exists chat. split; [done|].
  by apply list_elem_of_lookup_2 in Hl.
Qed.

(** After a save, alone or followed by the reset of the New Chat button,
    the saved chat is found under [saved_id] and holds the working
    messages, the thread id and the count of the moment of the save. *)
Lemma saved_snapshot u now s s1 :
  working s ≠ [] →
  s1 = save_current_chat u now s ∨ s1 = new_chat u now s →
  ∃ i chat, find_chat (saved_id u s) (chat_history s1) = Some (i, chat)
    ∧ Chat.id chat = saved_id u s
    ∧ stored s1 chat = working s
    ∧ Chat.thread_id chat = thread_id s
    ∧ Chat.count chat = conversation_count s.
Proof.
  intros Hw Hs1.
  destruct (save_current_chat_fields u now s Hw) as (_ & _ & _ & _ & _ & Hheap).
  destruct (save_current_chat_found u now s Hw)
    as (i & chat & Hfind & Hid & Hloc & Htid & Hcount).
  assert (Hstored : stored (save_current_chat u now s) chat = working s).
  { unfold stored. by rewrite Hloc, Hheap, deref_insert_eq. }
  exists i, chat. destruct Hs1 as [->| ->]; [done|].
  repeat split; try done.
  unfold new_chat, stored. cbn [reset_current_chat heap].
  rewrite deref_alloc; [done|].
  apply nonempty_is_Some. fold (stored (save_current_chat u now s) chat).
  by rewrite Hstored.
Qed.

(** C3. Saving a non-empty working thread and then loading the saved
    chat by its id restores the working messages, the thread id and the
    conversation count exactly as they were before the save; this holds for
    the save alone and for the New Chat button, which resets the working
    state after the save.  The restored messages are a copy: however the
    working state is edited afterwards (submits, clear), every saved chat,
    and the saved snapshot in particular, stays as it was. *)
Theorem save_then_load_restores (u : N) (now : Q) (s s1 : State) :
  working s ≠ [] →
  s1 = save_current_chat u now s ∨ s1 = step (NewChat u now) s →
  let id := saved_id u s in
  let s2 := step (LoadChat id) s1 in
  working s2 = working s
  ∧ thread_id s2 = thread_id s
  ∧ conversation_count s2 = conversation_count s
  ∧ active_chat_id s2 = Some id
  ∧ (saved_nonempty s → ∀ evs, forallb edits_working evs = true →
       saved_threads (run evs s2) = saved_threads s2
       ∧ ∃ title, (id, title, working s, thread_id s, conversation_count s)
                    ∈ saved_threads (run evs s2)).
Proof.
  intros Hw Hs1 id s2.
  destruct (saved_snapshot u now s s1 Hw Hs1)
    as (i & chat & Hfind & Hid & Hstored & Htid & Hcount).
  fold id in Hfind, Hid.
  destruct (load_chat_restores id i chat s1 Hfind) as (Hwork & Htid2 & Hcount2 & Hact2).
  change (load_chat id s1) with s2 in *.
  rewrite Hwork, Htid2, Hcount2, Hact2, Hstored, Htid, Hcount, Hid.
  do 4 (split; [done|]).
  intros Hne evs Hedits.
  assert (Hne1 : saved_nonempty s1).
  { destruct Hs1 as [->| ->].
    - by apply saved_nonempty_save.
    - by apply saved_nonempty_step. }
  destruct (load_chat_separated id i chat s1 Hfind Hne1) as [Hsep2 Hsaved2].
  change (load_chat id s1) with s2 in *.
  destruct (run_edits_separated evs s2 Hedits Hsep2) as (_ & Hsaved & _).
  split; [done|]. rewrite Hsaved, Hsaved2. exists (Chat.title chat).
  rewrite <- Hid, <- Hstored, <- Htid, <- Hcount.
  by apply (find_chat_saved id i).
Qed.

(** ** Saving without an active chat *)

Lemma save_new_entry u now s :
  working s ≠ [] → chat_exists s = false →
  Forall (λ c, is_Some (heap s !! Chat.messages c)) (chat_history s) →
  let s' := save_current_chat u now s in
  saved_threads s'
  = (str_uuid u, chat_title (first_message (working s)), working s,
     thread_id s, conversation_count s) :: saved_threads s
  ∧ Forall (λ c, is_Some (heap s' !! Chat.messages c)) (chat_history s').
Proof.
  intros Hw Hex Halloc s'.
  destruct (save_current_chat_fields u now s Hw) as (_ & _ & _ & _ & _ & Hheap).
  destruct (save_current_chat_history u now s Hw) as [[_ Hhist]|[Hex' _]];
    [|congruence].
  fold s' in Hheap, Hhist. split.
  - unfold saved_threads. rewrite Hhist, fmap_cons. f_equal.
    + unfold stored. cbn [Chat.messages Chat.id Chat.title Chat.thread_id Chat.count].
      by rewrite Hheap, deref_insert_eq.
    + apply list_eq_Forall2, Forall2_fmap, Forall_Forall2_diag.
      eapply Forall_impl; [exact Halloc|]. intros c Hc. cbn beta in Hc.
      unfold stored. rewrite Hheap. by rewrite deref_alloc.
  - rewrite Hhist, Hheap. constructor.
    + cbn [Chat.messages]. rewrite lookup_insert_eq. eauto.
    + eapply Forall_impl; [exact Halloc|]. intros c Hc. by apply is_Some_alloc.
Qed.

(** C10. Clear Current Chat resets the active chat id together with the
    working messages, the thread id and the conversation count, and leaves
    the saved chats alone.  When the thread typed after the clear is saved,
    by the save alone or by the New Chat button, it becomes a new entry at
    the front of the saved chats; the chat that was active before the clear
    is not overwritten, and every earlier entry is unchanged. *)
Theorem clear_then_save_inserts (s s3 : State)
    (inputs : list (option pystr * Outcome)) (u : N) (now : Q) :
  working s ≠ [] → saved_nonempty s →
  let s1 := step ClearChat s in
  let s2 := run (submits inputs) s1 in
  s3 = save_current_chat u now s2 ∨ s3 = step (NewChat u now) s2 →
  (active_chat_id s1 = None ∧ working s1 = [] ∧ thread_id s1 = None
   ∧ conversation_count s1 = 0 ∧ saved_threads s1 = saved_threads s)
  ∧ (working s2 ≠ [] →
     chat_ids s3 = str_uuid u :: chat_ids s
     ∧ saved_threads s3
       = (str_uuid u, chat_title (first_message (working s2)), working s2,
          thread_id s2, conversation_count s2) :: saved_threads s).
Proof.
  intros Hw Hne s1 s2 Hs3.
  assert (Hs1 : s1 = reset_current_chat s).
  { subst s1. cbn [step]. unfold clear_current_chat. by destruct (working s). }
  destruct (reset_separated s (saved_allocated s Hne)) as [Hsep1 Hsaved1].
  rewrite <- Hs1 in Hsep1, Hsaved1.
  split.
  { rewrite Hsaved1, Hs1, working_reset. done. }
  intros Hw2.
  destruct (run_edits_separated (submits inputs) s1 (submits_edit inputs) Hsep1)
    as (Hsep2 & Hsaved2 & Hhist2 & Hact2).
  fold s2 in Hsep2, Hsaved2, Hhist2, Hact2.
  assert (Hex2 : chat_exists s2 = false).
  { unfold chat_exists. rewrite Hact2; [done|]. by rewrite Hs1. }
  destruct (save_new_entry u now s2 Hw2 Hex2 (separated_allocated s2 Hsep2))
    as [Hsaved Halloc].
  rewrite Hsaved2, Hsaved1 in Hsaved.
  assert (Hsaved3 : saved_threads s3
                    = (str_uuid u, chat_title (first_message (working s2)),
                       working s2, thread_id s2, conversation_count s2)
                        :: saved_threads s).
  { destruct Hs3 as [->| ->]; [done|]. cbn [step]. unfold new_chat.
    destruct (reset_separated _ Halloc) as [_ ->]. done. }
  split; [|done].
  apply (f_equal (fmap (λ t, t.1.1.1.1))) in Hsaved3.
  unfold saved_threads in Hsaved3. rewrite fmap_cons, <- !list_fmap_compose in Hsaved3.
  exact Hsaved3.
Qed.

(** ** Deleting a chat *)

Lemma find_chat_None id hist : find_chat id hist = None ↔ id ∉ Chat.id <$> hist.
Proof.
  unfold find_chat. rewrite list_find_None, list_elem_of_fmap, Forall_forall.
  split.
  - intros Hall (c & -> & Hc). by apply (Hall c).
  - intros Hnot c Hc Hid. apply Hnot. by exists c.
Qed.

Lemma find_chat_delete id idx chat hist :
  NoDup (Chat.id <$> hist) → find_chat id hist = Some (idx, chat) →
  find_chat id (delete idx hist) = None.
Proof.
  intros Hnodup Hfind. unfold find_chat in *.
  apply list_find_Some in Hfind as (Hidx & Hid & _).
  apply list_find_None, Forall_forall. intros c Hc Hcid.
  apply list_elem_of_lookup in Hc as [j Hj].
  assert (Hat : ∀ k c', hist !! k = Some c' → Chat.id c' = id → k = idx).
  { intros k c' Hk Hk'. apply (NoDup_lookup _ k idx id Hnodup).
    - by rewrite list_lookup_fmap, Hk, <- Hk'.
    - by rewrite list_lookup_fmap, Hidx, <- Hid. }
  destruct (decide (j < idx)) as [Hlt|Hge].
  - rewrite list_lookup_delete_lt in Hj by done. specialize (Hat j c Hj Hcid). lia.
  - rewrite list_lookup_delete_ge in Hj by lia. specialize (Hat (S j) c Hj Hcid). lia.
Qed.

Lemma chat_history_delete_row idx chat s :
  chat_history (delete_row idx chat s) = delete idx (chat_history s).
Proof. unfold delete_row. by case_decide. Qed.

(** C8. Deleting a chat is idempotent: with the ids of the saved chats
    pairwise distinct, as UUIDs are, a second [delete] of the same id leaves
    the state exactly as the first one did; and a delete of an id that no
    saved chat has changes nothing and raises nothing. *)
Theorem delete_chat_idempotent (id : pystr) (s : State) :
  NoDup (chat_ids s) →
  step (DeleteChat id) (step (DeleteChat id) s) = step (DeleteChat id) s
  ∧ (id ∉ chat_ids s → step (DeleteChat id) s = s)
  ∧ (id ∉ chat_ids (step (DeleteChat id) s))
  ∧ NoDup (chat_ids (step (DeleteChat id) s)).
Proof.
  intros Hnodup. cbn [step].
  assert (Habsent : ∀ s', id ∉ chat_ids s' → delete_chat id s' = s').
  { intros s' Hnot. unfold delete_chat.
    by rewrite (proj2 (find_chat_None id (chat_history s'))). }
  assert (Hgone : id ∉ chat_ids (delete_chat id s)).
  { unfold delete_chat.
    destruct (find_chat id (chat_history s)) as [[idx chat]|] eqn:Hfind.
    - unfold chat_ids. rewrite chat_history_delete_row.
      apply find_chat_None. by apply (find_chat_delete id idx chat).
    - by apply find_chat_None. }
  split; [by apply Habsent|]. split; [exact (Habsent s)|]. split; [done|].
  unfold delete_chat. destruct (find_chat id (chat_history s)) as [[idx chat]|]; [|done].
  unfold chat_ids. rewrite chat_history_delete_row.
  unfold chat_ids in Hnodup. rewrite list_fmap_delete.
  eapply sublist_NoDup; [exact Hnodup | apply sublist_delete].
Qed.

(** ** Well-formed sessions

    The hypotheses used above hold in every state a session reaches:
    saved chats are non-empty (see C9), their lists are separate from the
    working list, and their ids are distinct as long as the UUIDs drawn
    are new. *)

Lemma chat_ids_insert_update i old m tid n (hist : list Chat.t) :
  hist !! i = Some old →
  Chat.id <$> <[ i := Chat.update m tid n old ]> hist = Chat.id <$> hist.
Proof.
  intros Hi. rewrite list_fmap_insert. apply list_insert_id.
  by rewrite list_lookup_fmap, Hi.
Qed.

Lemma chat_ids_save u now s :
  chat_ids (save_current_chat u now s) = chat_ids s
  ∨ chat_ids (save_current_chat u now s) = str_uuid u :: chat_ids s.
Proof.
  destruct (working s) as [|m rest] eqn:Hws.
  { left. unfold save_current_chat. by rewrite Hws. }
  assert (Hw : working s ≠ []) by (by rewrite Hws).
  unfold chat_ids.
  destruct (save_current_chat_history u now s Hw)
    as [[_ ->]|(_ & aid & i & old & _ & Hfind & ->)].
  - by right.
  - left. apply chat_ids_insert_update.
    unfold find_chat in Hfind. by apply list_find_Some in Hfind as (? & _).
Qed.

Lemma chat_ids_nodup_step e s :
  fresh_uuid e s → NoDup (chat_ids s) → NoDup (chat_ids (step e s)).
Proof.
  intros Hfresh Hnodup. destruct e as [u now|id|id| |prompt o]; cbn [step].
  - unfold new_chat. change (chat_ids (reset_current_chat ?x)) with (chat_ids x).
    destruct (chat_ids_save u now s) as [-> | ->]; [done|].
    by apply NoDup_cons.
  - unfold load_chat. by destruct (find_chat id (chat_history s)) as [[idx chat]|].
  - unfold delete_chat.
    destruct (find_chat id (chat_history s)) as [[idx chat]|]; [|done].
    unfold chat_ids. rewrite chat_history_delete_row, list_fmap_delete.
    eapply sublist_NoDup; [exact Hnodup | apply sublist_delete].
  - unfold clear_current_chat. by destruct (working s).
  - unfold chat_input. destruct (opt_truthy prompt); [|done]. by destruct o.
Qed.

Lemma chat_ids_nodup_run evs s :
  fresh_uuids evs s → NoDup (chat_ids s) → NoDup (chat_ids (run evs s)).
Proof.
  revert s. induction evs as [|e evs IH]; intros s Hfresh Hnodup; [done|].
  destruct Hfresh as [He Hrest]. by apply IH, chat_ids_nodup_step.
Qed.

Lemma save_allocated u now s :
  Forall (λ c, is_Some (heap s !! Chat.messages c)) (chat_history s) →
  Forall (λ c, is_Some (heap (save_current_chat u now s) !! Chat.messages c))
    (chat_history (save_current_chat u now s)).
Proof.
  intros Halloc. destruct (working s) as [|m rest] eqn:Hws.
  { unfold save_current_chat. by rewrite Hws. }
  assert (Hw : working s ≠ []) by (by rewrite Hws).
  destruct (save_current_chat_fields u now s Hw) as (_ & _ & _ & _ & _ & ->).
  assert (Hold : Forall (λ c, is_Some (<[ new_loc (heap s) := working s ]> (heap s)
                                         !! Chat.messages c)) (chat_history s)).
  { eapply Forall_impl; [exact Halloc|]. intros c Hc. by apply is_Some_alloc. }
  destruct (save_current_chat_history u now s Hw)
    as [[_ ->]|(_ & aid & i & old & _ & _ & ->)].
  - constructor; [|done]. cbn [Chat.messages]. rewrite lookup_insert_eq. eauto.
  - apply Forall_insert; [done|]. cbn [Chat.update Chat.messages].
    rewrite lookup_insert_eq. eauto.
Qed.

Lemma separated_step e s : separated s → separated (step e s).
Proof.
  intros Hsep. pose proof (separated_allocated s Hsep) as Halloc.
  destruct e as [u now|id|id| |prompt o].
  - cbn [step]. unfold new_chat.
    by destruct (reset_separated _ (save_allocated u now s Halloc)).
  - cbn [step]. unfold load_chat.
    destruct (find_chat id (chat_history s)) as [[idx chat]|]; [|done].
    by destruct (rebind_separated s (load_row chat s) (stored s chat) Halloc).
  - cbn [step]. unfold delete_chat.
    destruct (find_chat id (chat_history s)) as [[idx chat]|]; [|done].
    unfold delete_row. case_decide.
    + apply reset_separated. cbn [chat_history heap]. by apply Forall_delete.
    + unfold separated. cbn [chat_history heap messages]. by apply Forall_delete.
  - by apply edit_separated.
  - by apply edit_separated.
Qed.

Lemma separated_run evs : separated (run evs init).
Proof. apply run_invariant; [exact separated_step | constructor]. Qed.

(** ** Titles of saved chats *)

Lemma title_spec_prefix msgs msgs' :
  msgs ≠ [] → starts_with_user msgs → msgs `prefix_of` msgs' →
  title_spec msgs' = title_spec msgs.
Proof.
  intros Hne Hstart [more ->]. unfold title_spec, first_user_content.
  destruct msgs as [|[c|c] rest]; done.
Qed.

Lemma Forall_combine {A} (P Q R : A → Prop) (l : list A) :
  (∀ x, P x → Q x → R x) → Forall P l → Forall Q l → Forall R l.
Proof.
  intros Himpl HP. induction HP as [|x l Hx _ IH]; [constructor|].
  intros [HQx HQ]%Forall_cons. constructor; auto.
Qed.

Lemma titled_ext s s' :
  chat_history s' = chat_history s →
  Forall (λ c, stored s' c = stored s c) (chat_history s) →
  titled s → titled s'.
Proof.
  unfold titled. intros -> Hsame Hs.
  eapply Forall_combine; [|exact Hsame|exact Hs].
  intros c -> ?. done.
Qed.

Lemma stored_alloc_same s s' v :
  Forall (λ c, is_Some (heap s !! Chat.messages c)) (chat_history s) →
  heap s' = <[ new_loc (heap s) := v ]> (heap s) →
  Forall (λ c, stored s' c = stored s c) (chat_history s).
Proof.
  intros Halloc Hheap. eapply Forall_impl; [exact Halloc|].
  intros c Hc. unfold stored. rewrite Hheap. by apply deref_alloc.
Qed.

Lemma titled_reset s : separated s → titled s → titled (reset_current_chat s).
Proof.
  intros Hsep. apply titled_ext; [done|].
  apply (stored_alloc_same s _ []); [by apply separated_allocated | done].
Qed.

Lemma titled_in s c : titled s → c ∈ chat_history s → Chat.title c = title_spec (stored s c).
Proof. unfold titled. rewrite Forall_forall. auto. Qed.

Lemma find_chat_elem id i chat hist :
  find_chat id hist = Some (i, chat) → chat ∈ hist ∧ Chat.id chat = id.
Proof.
  unfold find_chat. intros (Hl & Hid & _)%list_find_Some.
  split; [|done]. by apply list_elem_of_lookup_2 in Hl.
Qed.

Lemma titled_save u now s :
  well_formed s → titled (save_current_chat u now s).
Proof.
  intros (Htr & Hne & Hsep & Htitled & Hcont).
  destruct (working s) as [|m rest] eqn:Hws.
  { unfold save_current_chat. by rewrite Hws. }
  assert (Hw : working s ≠ []) by (by rewrite Hws).
  destruct (save_current_chat_fields u now s Hw) as (_ & _ & _ & _ & _ & Hheap).
  pose proof (stored_alloc_same s _ _ (separated_allocated s Hsep) Hheap) as Hsame.
  assert (Hold : Forall (λ c, Chat.title c
                              = title_spec (stored (save_current_chat u now s) c))
                   (chat_history s)).
  { eapply Forall_combine; [|exact Hsame|exact Htitled].
    intros c -> ?. done. }
  assert (Hcopy : deref (heap (save_current_chat u now s)) (new_loc (heap s))
                  = working s).
  { by rewrite Hheap, deref_insert_eq. }
  unfold titled.
  destruct (save_current_chat_history u now s Hw)
    as [[_ ->]|(_ & aid & i & old & Hact & Hfind & ->)].
  - constructor; [|done]. unfold stored. cbn [Chat.title Chat.messages].
    rewrite Hcopy. apply chat_title_spec.
    by apply (transcripts_deref s).
  - apply Forall_insert; [done|]. unfold stored.
    cbn [Chat.update Chat.title Chat.messages]. rewrite Hcopy.
    destruct (find_chat_elem aid i old _ Hfind) as [Hin _].
    rewrite (titled_in s old Htitled Hin). symmetry.
    apply title_spec_prefix.
    + unfold saved_nonempty in Hne. rewrite Forall_forall in Hne. by apply Hne.
    + by apply (transcripts_deref s).
    + by apply (Hcont aid i).
Qed.

Lemma find_chat_delete_other aid idx chat (hist : list Chat.t) :
  hist !! idx = Some chat → Chat.id chat ≠ aid →
  snd <$> find_chat aid (delete idx hist) = snd <$> find_chat aid hist.
Proof.
  unfold find_chat. revert idx.
  induction hist as [|c rest IH]; intros idx Hidx Hne; [done|].
  destruct idx as [|idx]; cbn [delete list_delete list_find].
  - injection Hidx as ->. rewrite decide_False by done.
    rewrite <- option_fmap_compose. by destruct (list_find _ rest) as [[? ?]|].
  - destruct (decide (Chat.id c = aid)); [done|].
    rewrite <- !option_fmap_compose.
    specialize (IH idx Hidx Hne).
    destruct (list_find _ (delete idx rest)) as [[? ?]|],
             (list_find _ rest) as [[? ?]|]; naive_solver.
Qed.

Lemma stored_chat_input prompt o s :
  separated s →
  Forall (λ c, stored (chat_input prompt o s) c = stored s c) (chat_history s).
Proof.
  intros Hsep. eapply Forall_impl; [exact Hsep|]. intros c [_ Hne].
  unfold chat_input. destruct (opt_truthy prompt); [|done].
  assert (Hsend : stored (send_question (default [] prompt) s) c = stored s c).
  { by apply deref_append_ne. }
  destruct o as [r u|]; [|done]. rewrite <- Hsend. by apply deref_append_ne.
Qed.

Lemma chat_input_keeps prompt o s :
  chat_history (chat_input prompt o s) = chat_history s
  ∧ active_chat_id (chat_input prompt o s) = active_chat_id s.
Proof.
  unfold chat_input. destruct (opt_truthy prompt); [|done]. by destruct o.
Qed.

Lemma titled_step e s : well_formed s → titled (step e s).
Proof.
  intros Hwf. pose proof Hwf as (Htr & Hne & Hsep & Htitled & Hcont).
  pose proof (separated_allocated s Hsep) as Halloc.
  destruct e as [u now|id|id| |prompt o]; cbn [step].
  - unfold new_chat. apply titled_ext with (save_current_chat u now s); [done| |].
    + apply (stored_alloc_same _ _ []); [by apply save_allocated | done].
    + by apply titled_save.
  - unfold load_chat.
    destruct (find_chat id (chat_history s)) as [[idx chat]|]; [|done].
    revert Htitled. apply titled_ext; [done|].
    by apply (stored_alloc_same s _ (stored s chat)).
  - unfold delete_chat.
    destruct (find_chat id (chat_history s)) as [[idx chat]|]; [|done].
    unfold delete_row.
    set (s' := {| messages := messages s; thread_id := thread_id s;
                  conversation_count := conversation_count s;
                  chat_history := delete idx (chat_history s);
                  active_chat_id := active_chat_id s;
                  heap := heap s; requests := requests s |}).
    assert (Hdel : titled s') by (by apply Forall_delete).
    case_decide; [|done].
    revert Hdel. apply titled_ext; [done|].
    apply (stored_alloc_same s' _ []); [by apply Forall_delete | done].
  - unfold clear_current_chat. destruct (working s); [done|].
    revert Htitled. apply titled_ext; [done|].
    by apply (stored_alloc_same s _ []).
  - revert Htitled. apply titled_ext; [apply chat_input_keeps|].
    by apply stored_chat_input.
Qed.

Lemma continues_reset s : continues (reset_current_chat s).
Proof. intros aid i chat Hact. discriminate Hact. Qed.

Lemma continues_step e s : well_formed s → continues (step e s).
Proof.
  intros Hwf. pose proof Hwf as (Htr & Hne & Hsep & Htitled & Hcont).
  pose proof (separated_allocated s Hsep) as Halloc.
  destruct e as [u now|id|id| |prompt o]; cbn [step].
  - apply continues_reset.
  - unfold load_chat.
    destruct (find_chat id (chat_history s)) as [[idx chat]|] eqn:Hfind; [|done].
    destruct (find_chat_elem id idx chat _ Hfind) as [Hin Hid].
    intros aid i chat' [= <-] Hfind'. cbn [load_row chat_history] in Hfind'.
    rewrite Hid, Hfind in Hfind'. injection Hfind' as _ <-.
    rewrite working_load_row.
    pose proof (stored_alloc_same s (load_row chat s) (stored s chat) Halloc eq_refl)
      as Hsame.
    rewrite Forall_forall in Hsame. by rewrite (Hsame chat Hin).
  - unfold delete_chat.
    destruct (find_chat id (chat_history s)) as [[idx chat]|] eqn:Hfind; [|done].
    unfold delete_row. case_decide as Hactive; [apply continues_reset|].
    intros aid i chat' Hact Hfind'. cbn [chat_history active_chat_id] in *.
    assert (Hother : Chat.id chat ≠ aid).
    { intros Heq. apply Hactive. by rewrite Hact, Heq. }
    assert (Hidx : chat_history s !! idx = Some chat).
    { unfold find_chat in Hfind. by apply list_find_Some in Hfind as (? & _). }
    pose proof (find_chat_delete_other aid idx chat _ Hidx Hother) as Hsnd.
    rewrite Hfind' in Hsnd. cbn [fmap option_fmap option_map snd] in Hsnd.
    destruct (find_chat aid (chat_history s)) as [[i' c']|] eqn:Hfound;
      [|discriminate Hsnd].
    injection Hsnd as ->. by apply (Hcont aid i').
  - unfold clear_current_chat. destruct (working s); [done|].
    apply continues_reset.
  - intros aid i chat Hact Hfind.
    destruct (chat_input_keeps prompt o s) as [Hhist Hsame].
    rewrite Hhist in Hfind. rewrite Hsame in Hact.
    destruct (find_chat_elem aid i chat _ Hfind) as [Hin _].
    pose proof (stored_chat_input prompt o s Hsep) as Hstored.
    rewrite Forall_forall in Hstored. rewrite (Hstored chat Hin).
    rewrite working_chat_input. apply prefix_app_r. by apply (Hcont aid i).
Qed.

Lemma well_formed_step e s : well_formed s → well_formed (step e s).
Proof.
  intros Hwf. pose proof Hwf as (Htr & Hne & Hsep & _).
  split; [by apply transcripts_step|].
  split; [by apply saved_nonempty_step|].
  split; [by apply separated_step|].
  split; [by apply titled_step | by apply continues_step].
Qed.

Lemma well_formed_init : well_formed init.
Proof.
  split; [exact transcripts_init|]. repeat split; try constructor.
  intros aid i chat Hact. discriminate Hact.
Qed.

Lemma well_formed_run evs : well_formed (run evs init).
Proof. apply run_invariant; [exact well_formed_step | exact well_formed_init]. Qed.

(** C6. At every save in a session, the title derived from the working
    messages is the content of their first user message, cut to its first
    50 characters with "..." appended when it is longer than 50 characters,
    and "New Chat" when there is no user message.  The chat the save stores
    carries that title, whether it is a new entry or the active chat
    written again with its first title, and so does every saved chat for
    the messages it holds. *)
Theorem saved_title_is_derived (evs : list Event) (u : N) (now : Q) :
  let s := run evs init in
  let s' := save_current_chat u now s in
  chat_title (first_message (working s)) = title_spec (working s)
  ∧ (working s ≠ [] →
     ∃ i chat, find_chat (saved_id u s) (chat_history s') = Some (i, chat)
       ∧ stored s' chat = working s
       ∧ Chat.title chat = title_spec (working s))
  ∧ (∀ chat, chat ∈ chat_history s' → Chat.title chat = title_spec (stored s' chat)).
Proof.
  intros s s'. pose proof (well_formed_run evs) as Hwf. fold s in Hwf.
  pose proof (titled_save u now s Hwf) as Htitled. fold s' in Htitled.
  split; [|split].
  - apply chat_title_spec. apply (transcripts_deref s), Hwf.
  - intros Hw.
    destruct (saved_snapshot u now s s' Hw (or_introl eq_refl))
      as (i & chat & Hfind & _ & Hstored & _).
    exists i, chat. split; [done|]. split; [done|].
    destruct (find_chat_elem _ i chat _ Hfind) as [Hin _].
    by rewrite (titled_in s' chat Htitled Hin), Hstored.
  - intros chat Hin. by apply titled_in.
Qed.

(** * Further properties *)

(** ** Turns *)

Lemma answers_app msgs msgs' : answers (msgs ++ msgs') = answers msgs + answers msgs'.
Proof.
  unfold answers. induction msgs as [|m rest IH]; [done|].
  cbn [app count_if]. rewrite IH. lia.
Qed.

Lemma answers_follow_snoc_human b msgs p :
  answers_follow b msgs → answers_follow b (msgs ++ [HumanMessage p]).
Proof.
  revert b. induction msgs as [|[c|c] rest IH]; intros b; cbn [app answers_follow].
  - done.
  - apply IH.
  - intros [Hb Hrest]. split; [done|]. by apply IH.
Qed.

Lemma answers_follow_snoc_answer b msgs p a :
  answers_follow b (msgs ++ [HumanMessage p]) →
  answers_follow b ((msgs ++ [HumanMessage p]) ++ [AIMessage a]).
Proof.
  revert b. induction msgs as [|[c|c] rest IH]; intros b; cbn [app answers_follow].
  - done.
  - apply IH.
  - intros [Hb Hrest]. split; [done|]. by apply IH.
Qed.

Lemma answers_follow_counts b msgs :
  answers_follow b msgs →
  length msgs
    + (if b then match msgs with AIMessage _ :: _ => 1 | _ => 0 end else 0)
  = 2 * answers msgs + unanswered msgs.
Proof.
  revert b. induction msgs as [|[c|c] rest IH]; intros b.
  - destruct b; done.
  - cbn [answers_follow]. intros Hrest. specialize (IH true Hrest).
    unfold answers in *. cbn [count_if unanswered length].
    destruct rest as [|[c'|c'] rest']; cbn [count_if length] in *;
      destruct b; lia.
  - cbn [answers_follow]. intros [-> Hrest]. specialize (IH false Hrest).
    unfold answers in *. cbn [count_if unanswered length] in *. lia.
Qed.

Lemma in_turns_starts msgs : in_turns msgs → starts_with_user msgs.
Proof. destruct msgs as [|[c|c] rest]; [done | done | by intros [? _]]. Qed.

Lemma in_turns_balanced msgs :
  in_turns msgs → length msgs = 2 * answers msgs + unanswered msgs.
Proof.
  intros Hturns. pose proof (answers_follow_counts false msgs Hturns) as Hcount.
  cbv beta iota in Hcount. lia.
Qed.

(** A property of lists that the empty list has and that appending a
    question, and then its answer, keeps holds of every list object. *)
Lemma heap_Forall_step (P : list Message → Prop) e s :
  P [] →
  (∀ msgs p, P msgs → p ≠ [] → P (msgs ++ [HumanMessage p])) →
  (∀ msgs p a, P (msgs ++ [HumanMessage p]) →
     P ((msgs ++ [HumanMessage p]) ++ [AIMessage a])) →
  map_Forall (λ _ msgs, P msgs) (heap s) →
  map_Forall (λ _ msgs, P msgs) (heap (step e s)).
Proof.
  intros Hnil Hask Hanswer Hs.
  assert (Hderef : ∀ l, P (deref (heap s) l)).
  { intros l. unfold deref. destruct (heap s !! l) as [msgs|] eqn:Hl; [|done].
    exact (Hs l msgs Hl). }
  destruct e as [u now|id|id| |prompt o]; cbn [step].
  - unfold new_chat, reset_current_chat. cbn [heap].
    apply map_Forall_insert_2; [done|].
    unfold save_current_chat. destruct (working s) eqn:Hw; [done|].
    cbn [heap]. apply map_Forall_insert_2; [|done]. rewrite <- Hw. apply Hderef.
  - unfold load_chat. destruct (find_chat id (chat_history s)) as [[idx chat]|]; [|done].
    apply map_Forall_insert_2; [apply Hderef | done].
  - unfold delete_chat. destruct (find_chat id (chat_history s)) as [[idx chat]|]; [|done].
    unfold delete_row. case_decide; [|done]. by apply map_Forall_insert_2.
  - unfold clear_current_chat. destruct (working s); [done|].
    by apply map_Forall_insert_2.
  - unfold chat_input. destruct prompt as [[|c p]|]; cbn [opt_truthy str_truthy]; try done.
    change (default [] (Some (c :: p))) with (c :: p).
    assert (Hasked : P (working s ++ [HumanMessage (c :: p)])).
    { apply Hask; [apply Hderef | done]. }
    assert (Hsend : map_Forall (λ _ msgs, P msgs) (heap (send_question (c :: p) s))).
    { by apply map_Forall_insert_2. }
    destruct o as [r u|]; [|done].
    apply map_Forall_insert_2; [|done].
    fold (working (send_question (c :: p) s)). rewrite working_send.
    by apply Hanswer.
Qed.

Lemma turns_step e s : turns s → turns (step e s).
Proof.
  apply heap_Forall_step.
  - exact I.
  - intros msgs p Hm _. by apply answers_follow_snoc_human.
  - intros msgs p a. apply answers_follow_snoc_answer.
Qed.

Lemma turns_deref s l : turns s → in_turns (deref (heap s) l).
Proof.
  intros Hs. unfold deref. destruct (heap s !! l) as [msgs|] eqn:Hl; [|exact I].
  exact (Hs l msgs Hl).
Qed.

Lemma turns_init : turns init.
Proof.
  intros l msgs Hl. cbn [init heap] in Hl.
  apply lookup_singleton_Some in Hl as [_ <-]. exact I.
Qed.

(** ** Counters, the active chat, ids and requests along a session *)

Lemma Forall_stored_ext (P : Chat.t → list Message → Prop) s s' :
  chat_history s' = chat_history s →
  Forall (λ c, stored s' c = stored s c) (chat_history s) →
  Forall (λ c, P c (stored s c)) (chat_history s) →
  Forall (λ c, P c (stored s' c)) (chat_history s').
Proof.
  intros -> Hsame Hs. eapply Forall_combine; [|exact Hsame|exact Hs].
  intros c -> ?. done.
Qed.

Lemma working_save u now s : working (save_current_chat u now s) = working s.
Proof.
  destruct (decide (working s = [])) as [Hw|Hw].
  - unfold save_current_chat. by rewrite Hw.
  - destruct (save_current_chat_fields u now s Hw) as (Hm & _ & _ & _ & _ & Hheap).
    unfold working. rewrite Hm, Hheap. apply deref_alloc. by apply nonempty_is_Some.
Qed.

Lemma save_keeps u now s :
  thread_id (save_current_chat u now s) = thread_id s
  ∧ conversation_count (save_current_chat u now s) = conversation_count s
  ∧ active_chat_id (save_current_chat u now s) = active_chat_id s
  ∧ requests (save_current_chat u now s) = requests s.
Proof. unfold save_current_chat. by destruct (working s). Qed.

(** The entries after a save: the old ones, with the saved chat put in
    front or written over the active one. *)
Lemma save_entries (P : Chat.t → Prop) u now s :
  Forall P (chat_history s) →
  (∀ id title t, P (Chat.mk id title (new_loc (heap s)) (thread_id s)
                       (conversation_count s) t)) →
  Forall P (chat_history (save_current_chat u now s)).
Proof.
  intros Hold Hnew. destruct (working s) as [|m rest] eqn:Hws.
  { unfold save_current_chat. by rewrite Hws. }
  assert (Hw : working s ≠ []) by (by rewrite Hws).
  destruct (save_current_chat_history u now s Hw)
    as [[_ ->]|(_ & aid & i & old & _ & _ & ->)].
  - constructor; [apply Hnew | done].
  - apply Forall_insert; [done | apply Hnew].
Qed.

Lemma stored_save_same u now s :
  Forall (λ c, is_Some (heap s !! Chat.messages c)) (chat_history s) →
  Forall (λ c, stored (save_current_chat u now s) c = stored s c) (chat_history s).
Proof.
  intros Halloc. destruct (working s) as [|m rest] eqn:Hws.
  { unfold save_current_chat. rewrite Hws. by apply Forall_true. }
  assert (Hw : working s ≠ []) by (by rewrite Hws).
  destruct (save_current_chat_fields u now s Hw) as (_ & _ & _ & _ & _ & Hheap).
  by apply (stored_alloc_same s _ (working s)).
Qed.

Lemma stored_saved_copy u now s id title t :
  working s ≠ [] →
  stored (save_current_chat u now s)
    (Chat.mk id title (new_loc (heap s)) (thread_id s) (conversation_count s) t)
  = working s.
Proof.
  intros Hw.
  destruct (save_current_chat_fields u now s Hw) as (_ & _ & _ & _ & _ & Hheap).
  unfold stored. cbn [Chat.messages]. by rewrite Hheap, deref_insert_eq.
Qed.

Lemma counted_save u now s :
  separated s → counted s → counted (save_current_chat u now s).
Proof.
  intros Hsep [Hcount Hchats]. destruct (save_keeps u now s) as (_ & Hc & _).
  split; [by rewrite Hc, working_save|].
  destruct (working s) as [|m rest] eqn:Hws.
  { unfold save_current_chat. by rewrite Hws. }
  assert (Hw : working s ≠ []) by (by rewrite Hws).
  apply (save_entries (λ c, Chat.count c = answers (stored (save_current_chat u now s) c))).
  - eapply Forall_combine;
      [|exact (stored_save_same u now s (separated_allocated s Hsep))|exact Hchats].
    intros c -> ?. done.
  - intros id title t. rewrite stored_saved_copy by done. cbn [Chat.count].
    by rewrite Hcount, Hws.
Qed.

Lemma counted_reset s :
  Forall (λ c, is_Some (heap s !! Chat.messages c)) (chat_history s) →
  counted s → counted (reset_current_chat s).
Proof.
  intros Halloc [_ Hchats]. split; [by rewrite working_reset|].
  apply (Forall_stored_ext (λ c msgs, Chat.count c = answers msgs) s); [done| |done].
  by apply (stored_alloc_same s _ []).
Qed.

Lemma counted_step e s : separated s → counted s → counted (step e s).
Proof.
  intros Hsep Hcounted. pose proof Hcounted as [Hcount Hchats].
  pose proof (separated_allocated s Hsep) as Halloc.
  destruct e as [u now|id|id| |prompt o]; cbn [step].
  - unfold new_chat. apply counted_reset; [by apply save_allocated|].
    by apply counted_save.
  - unfold load_chat.
    destruct (find_chat id (chat_history s)) as [[idx chat]|] eqn:Hfind; [|done].
    destruct (find_chat_elem id idx chat _ Hfind) as [Hin _].
    split.
    + rewrite working_load_row. cbn [load_row conversation_count].
      rewrite Forall_forall in Hchats. by apply Hchats.
    + apply (Forall_stored_ext (λ c msgs, Chat.count c = answers msgs) s);
        [done| |done].
      by apply (stored_alloc_same s _ (stored s chat)).
  - unfold delete_chat.
    destruct (find_chat id (chat_history s)) as [[idx chat]|]; [|done].
    unfold delete_row.
    set (s' := {| messages := messages s; thread_id := thread_id s;
                  conversation_count := conversation_count s;
                  chat_history := delete idx (chat_history s);
                  active_chat_id := active_chat_id s;
                  heap := heap s; requests := requests s |}).
    assert (Hdel : counted s') by (split; [done | by apply Forall_delete]).
    case_decide; [|done].
    apply counted_reset; [by apply Forall_delete | done].
  - unfold clear_current_chat. destruct (working s) eqn:Hw; [done|].
    by apply counted_reset.
  - split.
    + rewrite working_chat_input, answers_app. unfold chat_input.
      destruct (opt_truthy prompt); [|by rewrite Hcount; cbn; lia].
      destruct o as [r u|]; cbn; rewrite Hcount; unfold answers; cbn; lia.
    + apply (Forall_stored_ext (λ c msgs, Chat.count c = answers msgs) s);
        [apply chat_input_keeps | by apply stored_chat_input | done].
Qed.

Lemma answered_threads_step e s : answered_threads s → answered_threads (step e s).
Proof.
  intros [Hnow Hchats].
  assert (Hreset : ∀ s', Forall (λ c, opt_truthy (Chat.thread_id c) = true
                                      → 1 ≤ Chat.count c) (chat_history s') →
                         answered_threads (reset_current_chat s')).
  { intros s' Hs'. split; [discriminate | done]. }
  destruct e as [u now|id|id| |prompt o]; cbn [step].
  - apply Hreset. by apply (save_entries _ u now s).
  - unfold load_chat.
    destruct (find_chat id (chat_history s)) as [[idx chat]|] eqn:Hfind; [|done].
    destruct (find_chat_elem id idx chat _ Hfind) as [Hin _].
    split; [|done]. cbn [load_row thread_id conversation_count].
    rewrite Forall_forall in Hchats. by apply Hchats.
  - unfold delete_chat.
    destruct (find_chat id (chat_history s)) as [[idx chat]|]; [|done].
    unfold delete_row. case_decide.
    + apply Hreset. by apply Forall_delete.
    + split; [done | by apply Forall_delete].
  - unfold clear_current_chat. destruct (working s); [done | by apply Hreset].
  - unfold chat_input. destruct (opt_truthy prompt); [|done].
    destruct o as [r u|]; [|done]. split; [|done]. cbn. lia.
Qed.

Lemma elem_of_delete_other {A} (x y : A) idx (l : list A) :
  x ∈ l → l !! idx = Some y → y ≠ x → x ∈ delete idx l.
Proof.
  intros [j Hj]%list_elem_of_lookup Hidx Hne.
  assert (j ≠ idx) by (intros ->; congruence).
  apply list_elem_of_lookup. destruct (decide (j < idx)) as [Hlt|Hge].
  - exists j. by rewrite list_lookup_delete_lt.
  - exists (pred j). rewrite list_lookup_delete_ge by lia.
    by replace (S (pred j)) with j by lia.
Qed.

Lemma active_saved_step e s :
  saved_nonempty s → active_saved s → active_saved (step e s).
Proof.
  intros Hne Hactive.
  assert (Hreset : ∀ s', active_saved (reset_current_chat s')).
  { intros s' id Hid. discriminate Hid. }
  destruct e as [u now|id|id| |prompt o]; cbn [step].
  - apply Hreset.
  - unfold load_chat.
    destruct (find_chat id (chat_history s)) as [[idx chat]|] eqn:Hfind; [|done].
    destruct (find_chat_elem id idx chat _ Hfind) as [Hin _].
    intros id' [= <-]. split.
    + unfold chat_ids. cbn [load_row chat_history]. by apply list_elem_of_fmap_2.
    + rewrite working_load_row. unfold saved_nonempty in Hne.
      rewrite Forall_forall in Hne. by apply Hne.
  - unfold delete_chat.
    destruct (find_chat id (chat_history s)) as [[idx chat]|] eqn:Hfind; [|done].
    unfold delete_row. case_decide as Hact; [apply Hreset|].
    intros aid Haid. cbn [active_chat_id] in Haid.
    destruct (Hactive aid Haid) as [Hin Hw]. split; [|done].
    unfold chat_ids. cbn [chat_history]. rewrite list_fmap_delete.
    apply (elem_of_delete_other aid (Chat.id chat)); [done| |congruence].
    unfold find_chat in Hfind. apply list_find_Some in Hfind as (Hidx & _).
    by rewrite list_lookup_fmap, Hidx.
  - unfold clear_current_chat. destruct (working s); [done | apply Hreset].
  - intros aid Haid. destruct (chat_input_keeps prompt o s) as [Hhist Hsame].
    rewrite Hsame in Haid. destruct (Hactive aid Haid) as [Hin Hw].
    split; [unfold chat_ids; by rewrite Hhist|].
    rewrite working_chat_input. by destruct (working s).
Qed.

Lemma uuid_ids_step e s : uuid_ids s → uuid_ids (step e s).
Proof.
  intros Hs. unfold uuid_ids in *.
  destruct e as [u now|id|id| |prompt o]; cbn [step].
  - unfold new_chat. cbn [reset_current_chat chat_history].
    destruct (working s) as [|m rest] eqn:Hws.
    { unfold save_current_chat. by rewrite Hws. }
    assert (Hw : working s ≠ []) by (by rewrite Hws).
    destruct (save_current_chat_history u now s Hw)
      as [[_ ->]|(_ & aid & i & old & _ & Hfind & ->)].
    + constructor; [by exists u | done].
    + apply Forall_insert; [done|]. cbn [Chat.update Chat.id].
      destruct (find_chat_elem aid i old _ Hfind) as [Hin _].
      rewrite Forall_forall in Hs. by apply Hs.
  - unfold load_chat. by destruct (find_chat id (chat_history s)) as [[idx chat]|].
  - unfold delete_chat.
    destruct (find_chat id (chat_history s)) as [[idx chat]|]; [|done].
    rewrite chat_history_delete_row. by apply Forall_delete.
  - unfold clear_current_chat. by destruct (working s).
  - by rewrite (proj1 (chat_input_keeps prompt o s)).
Qed.

Lemma query_rag_ok p tid : p ≠ [] → request_ok (query_rag p tid).
Proof.
  intros Hp. split; [done|]. cbn [query_rag params_thread_id].
  by destruct tid as [[|c t]|].
Qed.

Lemma requests_step e s :
  requests (step e s)
  = requests s ++
      match e with
      | ChatInput (Some p) _ =>
          if str_truthy p then [query_rag p (thread_id s)] else []
      | _ => []
      end.
Proof.
  destruct e as [u now|id|id| |prompt o]; cbn [step].
  - unfold new_chat. cbn [reset_current_chat requests].
    destruct (save_keeps u now s) as (_ & _ & _ & ->). by rewrite app_nil_r.
  - unfold load_chat. rewrite app_nil_r.
    by destruct (find_chat id (chat_history s)) as [[idx chat]|].
  - unfold delete_chat. rewrite app_nil_r.
    destruct (find_chat id (chat_history s)) as [[idx chat]|]; [|done].
    unfold delete_row. by case_decide.
  - unfold clear_current_chat. rewrite app_nil_r. by destruct (working s).
  - unfold chat_input. destruct prompt as [p|]; cbn [opt_truthy]; [|by rewrite app_nil_r].
    destruct (str_truthy p); [|by rewrite app_nil_r]. by destruct o.
Qed.

Lemma requests_ok_step e s :
  Forall request_ok (requests s) → Forall request_ok (requests (step e s)).
Proof.
  intros Hs. rewrite requests_step. apply Forall_app. split; [done|].
  destruct e as [| | | |[p|] o]; try constructor.
  destruct p as [|c p]; cbn [str_truthy]; [constructor|].
  apply Forall_singleton. by apply query_rag_ok.
Qed.

Lemma sound_step e s : sound s → sound (step e s).
Proof.
  intros (Hwf & Hturns & Hcounted & Hanswered & Hactive & Hids & Hreq).
  pose proof Hwf as (_ & Hne & Hsep & _).
  split; [by apply well_formed_step|]. split; [by apply turns_step|].
  split; [by apply counted_step|]. split; [by apply answered_threads_step|].
  split; [by apply active_saved_step|]. split; [by apply uuid_ids_step|].
  by apply requests_ok_step.
Qed.

Lemma sound_init : sound init.
Proof.
  split; [exact well_formed_init|]. split; [exact turns_init|].
  repeat split; try constructor; done.
Qed.

Lemma sound_run evs : sound (run evs init).
Proof. apply run_invariant; [exact sound_step | exact sound_init]. Qed.

(** ** Requests *)

Lemma requests_run_prefix evs s : requests s `prefix_of` requests (run evs s).
Proof.
  revert s. induction evs as [|e evs IH]; intros s; [done|].
  cbn [run]. etrans; [|apply IH]. rewrite requests_step. by apply prefix_app_r.
Qed.

Lemma requests_run_length evs s :
  length (requests (run evs s))
  = length (requests s)
    + count_if (λ e, match e with
                     | ChatInput (Some p) _ => str_truthy p
                     | _ => false
                     end) evs.
Proof.
  revert s. induction evs as [|e evs IH]; intros s; [simpl; lia|].
  cbn [run count_if]. rewrite IH, requests_step, length_app.
  destruct e as [| | | |[p|] o]; cbn [length]; try lia.
  destruct (str_truthy p); cbn [length]; lia.
Qed.

(** X1. Only the chat input calls the query service, once for every
    non-empty prompt and whatever the outcome of the call: the request
    carries the prompt as question and the session's thread id, or no
    thread id when that is [None] or empty.  Along a session the log of
    requests only grows at its end, by one entry per such submit. *)
Theorem one_request_per_submit (e : Event) (evs : list Event) (s : State) :
  requests (step e s)
  = requests s ++
      match e with
      | ChatInput (Some p) _ =>
          if str_truthy p
          then [ {| question := p;
                    params_thread_id :=
                      if opt_truthy (thread_id s) then thread_id s else None |} ]
          else []
      | _ => []
      end
  ∧ requests s `prefix_of` requests (run evs s)
  ∧ length (requests (run evs s))
    = length (requests s)
      + count_if (λ e, match e with
                       | ChatInput (Some p) _ => str_truthy p
                       | _ => false
                       end) evs.
Proof.
  split; [exact (requests_step e s)|].
  split; [apply requests_run_prefix | apply requests_run_length].
Qed.

Lemma run_submits_snoc inputs i s :
  run (submits (inputs ++ [i])) s
  = chat_input i.1 i.2 (run (submits inputs) s).
Proof. unfold submits. by rewrite fmap_app, run_app. Qed.

Lemma thread_id_run_kept inputs s :
  opt_truthy (thread_id s) = true →
  thread_id (run (submits inputs) s) = thread_id s.
Proof.
  revert s. induction inputs as [|[prompt o] inputs IH]; intros s Ht; [done|].
  rewrite run_submits_cons. cbn [fst snd].
  rewrite IH; by rewrite thread_id_kept.
Qed.

(** X2. Once a working thread has a thread id, every request of the
    submits that follow carries exactly that thread id, and the thread id
    is still the same afterwards, whatever the results contain. *)
Theorem thread_id_sent_with_every_request
    (inputs : list (option pystr * Outcome)) (s : State) (t : pystr) :
  thread_id s = Some t → t ≠ [] →
  ∃ sent,
    requests (run (submits inputs) s) = requests s ++ sent
    ∧ Forall (λ r, params_thread_id r = Some t) sent
    ∧ length sent = count_if succeeded inputs + count_if failed inputs
    ∧ thread_id (run (submits inputs) s) = Some t.
Proof.
  intros Ht Hne. assert (Htruthy : opt_truthy (thread_id s) = true).
  { rewrite Ht. by destruct t. }
  revert s Ht Htruthy. induction inputs as [|[prompt o] inputs IH]; intros s Ht Htruthy.
  { exists []. by rewrite app_nil_r. }
  rewrite run_submits_cons. cbn [fst snd].
  pose proof (thread_id_kept prompt o s Htruthy) as Hkept.
  destruct (IH (chat_input prompt o s)) as (sent & Hreq & Hall & Hlen & Hafter);
    [by rewrite Hkept | by rewrite Hkept |].
  pose proof (requests_step (ChatInput prompt o) s) as Hstep. cbn [step] in Hstep.
  rewrite Hreq, Hstep, <- app_assoc. eexists. split; [reflexivity|].
  split; [|split; [|done]].
  - apply Forall_app. split; [|done].
    destruct prompt as [[|c p]|]; cbn [str_truthy]; try constructor; [|constructor].
    cbn [query_rag params_thread_id]. by rewrite Htruthy.
  - rewrite length_app, Hlen. cbn [count_if]. unfold succeeded, failed.
    cbn [fst snd]. destruct prompt as [[|c p]|]; cbn; destruct o; cbn; lia.
Qed.

(** X3. No request a session ever sends has an empty question, and none
    passes an empty thread id: a thread id of [None] or [""] is left out
    of the query parameters. *)
Theorem requests_are_well_formed (evs : list Event) :
  Forall (λ r, question r ≠ [] ∧ params_thread_id r ≠ Some [])
    (requests (run evs init)).
Proof. apply (sound_run evs). Qed.

(** X4. The conversation count after a run of submits is the count
    before plus the number of submits that succeeded; failed and skipped
    submits do not count, and no submit touches the saved chats' entries
    or the active chat id. *)
Theorem conversation_count_of_submits
    (inputs : list (option pystr * Outcome)) (s : State) :
  conversation_count (run (submits inputs) s)
  = conversation_count s + count_if succeeded inputs
  ∧ chat_history (run (submits inputs) s) = chat_history s
  ∧ active_chat_id (run (submits inputs) s) = active_chat_id s.
Proof.
  revert s. induction inputs as [|[prompt o] inputs IH]; intros s.
  { simpl. repeat split. lia. }
  rewrite run_submits_cons. cbn [fst snd].
  destruct (IH (chat_input prompt o s)) as (-> & -> & ->).
  destruct (chat_input_keeps prompt o s) as [-> ->].
  split; [|done]. cbn [count_if]. unfold succeeded, chat_input. cbn [fst snd].
  destruct (opt_truthy prompt); cbn [andb]; [|lia].
  destruct o as [r u|]; cbn; lia.
Qed.

(** ** Titles and saved entries *)

Lemma lit_New_Chat : lit "New Chat" ≠ [] ∧ length (lit "New Chat") = 8.
Proof. split; [discriminate | reflexivity]. Qed.

(** X5. A derived title is never empty and never longer than 53
    characters.  A first user message of at most 50 characters is the title
    as it is; a longer one gives exactly its first 50 characters and three
    dots; without a user message, or with an empty one, the title is
    "New Chat". *)
Theorem chat_title_bounds (first : option pystr) :
  chat_title first ≠ []
  ∧ length (chat_title first) ≤ 53
  ∧ (∀ c, first = Some c → c ≠ [] → length c ≤ 50 → chat_title first = c)
  ∧ (∀ c, first = Some c → 50 < length c →
       chat_title first = take 50 c ++ lit "..."
       ∧ length (chat_title first) = 53)
  ∧ (first = None ∨ first = Some [] → chat_title first = lit "New Chat").
Proof.
  destruct lit_New_Chat as [Hnew Hlen].
  assert (Hlong : ∀ c : pystr, 50 < length c → length (take 50 c ++ lit "...") = 53).
  { intros c Hc. rewrite length_app, length_take.
    change (length (lit "...")) with 3. lia. }
  split; [|split; [|split; [|split]]].
  - destruct first as [[|x c]|]; [done| |done]. cbn [chat_title str_truthy andb].
    destruct (50 <? length (x :: c)) eqn:Hcmp; [|done].
    apply Nat.ltb_lt in Hcmp. intros Heq. apply (f_equal length) in Heq.
    rewrite Hlong in Heq by done. discriminate.
  - destruct first as [[|x c]|];
      [change (length (lit "New Chat") ≤ 53); lia|
      |change (length (lit "New Chat") ≤ 53); lia].
    cbn [chat_title str_truthy andb].
    destruct (50 <? length (x :: c)) eqn:Hcmp.
    + apply Nat.ltb_lt in Hcmp. rewrite Hlong by done. lia.
    + apply Nat.ltb_ge in Hcmp. lia.
  - intros c -> Hc Hshort. destruct c as [|x c]; [done|].
    cbn [chat_title str_truthy andb].
    by rewrite (proj2 (Nat.ltb_ge 50 (length (x :: c)))) by done.
  - intros c -> Hc. destruct c as [|x c]; [simpl in Hc; lia|].
    cbn [chat_title str_truthy andb].
    rewrite (proj2 (Nat.ltb_lt 50 (length (x :: c)))) by done.
    split; [done | by apply Hlong].
  - by intros [-> | ->].
Qed.

Lemma saved_threads_same s s' :
  Forall (λ c, stored s' c = stored s c) (chat_history s) →
  (λ c, (Chat.id c, Chat.title c, stored s' c, Chat.thread_id c, Chat.count c))
    <$> chat_history s
  = saved_threads s.
Proof.
  intros Hsame. unfold saved_threads.
  apply list_eq_Forall2, Forall2_fmap, Forall_Forall2_diag.
  eapply Forall_impl; [exact Hsame|]. intros c Hc. by rewrite Hc.
Qed.

Lemma timestamps_save u now s :
  timestamps (save_current_chat u now s) = timestamps s
  ∨ (working s ≠ [] ∧ chat_exists s = false
     ∧ timestamps (save_current_chat u now s) = now :: timestamps s).
Proof.
  destruct (working s) as [|m rest] eqn:Hws.
  { left. unfold save_current_chat. by rewrite Hws. }
  assert (Hw : working s ≠ []) by (by rewrite Hws).
  unfold timestamps.
  destruct (save_current_chat_history u now s Hw)
    as [[Hex ->]|(_ & aid & i & old & _ & Hfind & ->)].
  - by right.
  - left. rewrite list_fmap_insert. apply list_insert_id.
    unfold find_chat in Hfind. apply list_find_Some in Hfind as (Hi & _).
    by rewrite list_lookup_fmap, Hi.
Qed.

(** X6. Saving while a saved chat is active writes the working messages,
    thread id and count over that chat's entry in place: the entry keeps
    its position, id, title and timestamp, the number of entries does not
    change, and every other entry is left as it was. *)
Theorem save_overwrites_active_entry (u : N) (now : Q) (s : State)
    (aid : pystr) (i : nat) (old : Chat.t) :
  working s ≠ [] → saved_nonempty s →
  active_chat_id s = Some aid → aid ≠ [] →
  find_chat aid (chat_history s) = Some (i, old) →
  let s' := save_current_chat u now s in
  saved_threads s'
  = <[ i := (aid, Chat.title old, working s, thread_id s, conversation_count s) ]>
      (saved_threads s)
  ∧ length (chat_history s') = length (chat_history s)
  ∧ chat_ids s' = chat_ids s
  ∧ timestamps s' = timestamps s.
Proof.
  intros Hw Hne Hact Haid Hfind s'.
  destruct (find_chat_elem aid i old _ Hfind) as [Hin Hid].
  assert (Hex : chat_exists s = true).
  { unfold chat_exists. rewrite Hact. apply andb_true_iff. split; [by destruct aid|].
    apply bool_decide_eq_true. unfold chat_ids. rewrite <- Hid.
    by apply list_elem_of_fmap_2. }
  destruct (save_current_chat_history u now s Hw)
    as [[Hex' _]|(_ & aid' & i' & old' & Hact' & Hfind' & Hhist)]; [congruence|].
  fold s' in Hhist. rewrite Hact in Hact'. injection Hact' as <-.
  rewrite Hfind in Hfind'. injection Hfind' as <- <-.
  pose proof (stored_save_same u now s (saved_allocated s Hne)) as Hsame.
  fold s' in Hsame.
  split; [|split; [|split]].
  - unfold saved_threads at 1. rewrite Hhist, list_fmap_insert.
    rewrite (saved_threads_same s s' Hsame).
    cbn [Chat.update Chat.id Chat.title Chat.thread_id Chat.count].
    unfold stored at 1. cbn [Chat.messages].
    destruct (save_current_chat_fields u now s Hw) as (_ & _ & _ & _ & _ & Hheap).
    fold s' in Hheap. by rewrite Hheap, deref_insert_eq, Hid.
  - by rewrite Hhist, length_insert.
  - unfold chat_ids. rewrite Hhist. apply chat_ids_insert_update.
    unfold find_chat in Hfind. by apply list_find_Some in Hfind as (? & _).
  - destruct (timestamps_save u now s) as [Hts|(_ & Hex' & _)]; [done | congruence].
Qed.

Lemma uuid_id_truthy s id :
  uuid_ids s → id ∈ chat_ids s → str_truthy id = true.
Proof.
  unfold uuid_ids, chat_ids. rewrite Forall_forall.
  intros Hids (c & -> & Hc)%list_elem_of_fmap.
  destruct (Hids c Hc) as [u ->]. apply str_uuid_truthy.
Qed.

Lemma sound_chat_exists s :
  sound s → chat_exists s = bool_decide (active_chat_id s ≠ None).
Proof.
  intros (_ & _ & _ & _ & Hactive & Hids & _). unfold chat_exists.
  destruct (active_chat_id s) as [aid|] eqn:Hact; [|done].
  destruct (Hactive aid Hact) as [Hin _].
  rewrite (uuid_id_truthy s aid Hids Hin). cbn [andb].
  by rewrite !bool_decide_eq_true_2.
Qed.

(** X7. In a session, New Chat adds an entry to the saved chats exactly
    when there are working messages and no chat is active, and then it is
    the new UUID in front; with an active chat the ids stay as they are, so
    saving a loaded chat again never duplicates it; with no working
    messages nothing is saved. *)
Theorem new_chat_adds_at_most_one (evs : list Event) (u : N) (now : Q) :
  let s := run evs init in
  chat_ids (step (NewChat u now) s)
  = if bool_decide (working s ≠ [] ∧ active_chat_id s = None)
    then str_uuid u :: chat_ids s
    else chat_ids s.
Proof.
  intros s. pose proof (sound_run evs) as Hsound. fold s in Hsound.
  pose proof (sound_chat_exists s Hsound) as Hex.
  cbn [step]. unfold new_chat.
  change (chat_ids (reset_current_chat ?x)) with (chat_ids x).
  destruct (decide (working s = [])) as [Hw|Hw].
  { rewrite bool_decide_eq_false_2 by (intros [? _]; done).
    unfold save_current_chat. by rewrite Hw. }
  unfold chat_ids.
  destruct (save_current_chat_history u now s Hw)
    as [[Hno ->]|(Hyes & aid & i & old & Hact & Hfind & ->)].
  - rewrite Hno in Hex. symmetry in Hex. apply bool_decide_eq_false in Hex.
    rewrite bool_decide_eq_true_2; [done|]. split; [done|].
    destruct (active_chat_id s); [|done]. by destruct Hex.
  - rewrite bool_decide_eq_false_2 by (intros [_ ?]; congruence).
    apply chat_ids_insert_update.
    unfold find_chat in Hfind. by apply list_find_Some in Hfind as (? & _).
Qed.

(** ** What holds in every state of a session *)

(** X8. In every state of a session the conversation count is the
    number of assistant messages of the working thread, and the count of
    every saved chat (the number its caption shows) is the number of
    assistant messages it holds; the messages of a thread are twice that
    count plus its unanswered user messages. *)
Theorem counts_are_answers (evs : list Event) :
  let s := run evs init in
  conversation_count s = answers (working s)
  ∧ length (working s) = 2 * conversation_count s + unanswered (working s)
  ∧ ∀ c, c ∈ chat_history s →
      Chat.count c = answers (stored s c)
      ∧ length (stored s c) = 2 * Chat.count c + unanswered (stored s c).
Proof.
  intros s.
  destruct (sound_run evs) as (_ & Hturns & [Hcount Hchats] & _).
  fold s in Hturns, Hcount, Hchats.
  split; [done|]. split.
  - rewrite Hcount. apply in_turns_balanced. by apply turns_deref.
  - intros c Hc. rewrite Forall_forall in Hchats. rewrite (Hchats c Hc).
    split; [done|]. apply in_turns_balanced. by apply turns_deref.
Qed.

(** X9. Every list of messages a session holds, the working one and
    that of every saved chat, begins with a user message when it is not
    empty, has no user message with empty content, and has each assistant
    message directly after a user message (hence never two answers in a
    row). *)
Theorem messages_take_turns (evs : list Event) :
  let s := run evs init in
  ∀ msgs, msgs = working s ∨ (∃ c, c ∈ chat_history s ∧ msgs = stored s c) →
    starts_with_user msgs
    ∧ Forall prompt_given msgs
    ∧ answers_follow false msgs
    ∧ ∀ i a b, msgs !! i = Some (AIMessage a) → msgs !! S i ≠ Some (AIMessage b).
Proof.
  intros s msgs Hmsgs.
  destruct (sound_run evs) as ((Htr & _) & Hturns & _). fold s in Htr, Hturns.
  assert (Hshape : transcript msgs ∧ in_turns msgs).
  { destruct Hmsgs as [-> | (c & _ & ->)];
      (split; [by apply transcripts_deref | by apply turns_deref]). }
  destruct Hshape as [[Hgiven Hstart] Hin].
  repeat split; try done.
  clear -Hin. unfold in_turns in Hin. revert Hin. generalize false.
  induction msgs as [|m rest IH]; intros flag Hin i a b Hi HSi; [done|].
  destruct i as [|i].
  - cbn in Hi, HSi. injection Hi as ->. destruct rest as [|m' rest']; [done|].
    cbn in HSi. injection HSi as ->. cbn in Hin. by destruct Hin as (_ & ? & _).
  - destruct m as [c|c]; cbn [answers_follow] in Hin.
    + by apply (IH true Hin i a b).
    + destruct Hin as [_ Hin]. by apply (IH false Hin i a b).
Qed.

(** X10. In every state of a session an active chat is one of the
    saved chats, its id is not empty, the working thread is not empty and
    begins with the messages that chat holds; and a working thread with a
    thread id has at least one completed exchange. *)
Theorem active_chat_is_saved (evs : list Event) :
  let s := run evs init in
  (∀ id, active_chat_id s = Some id →
     id ≠ [] ∧ working s ≠ []
     ∧ ∃ i chat, find_chat id (chat_history s) = Some (i, chat)
         ∧ stored s chat `prefix_of` working s)
  ∧ (opt_truthy (thread_id s) = true →
     1 ≤ conversation_count s ∧ 2 ≤ length (working s)).
Proof.
  intros s.
  pose proof (sound_run evs) as Hsound. fold s in Hsound.
  pose proof Hsound as ((_ & _ & _ & _ & Hcont) & Hturns & [Hcount _]
                          & [Hanswered _] & Hactive & Hids & _).
  split.
  - intros id Hid. destruct (Hactive id Hid) as [Hin Hw].
    split; [|split; [done|]].
    + pose proof (uuid_id_truthy s id Hids Hin). by destruct id.
    + destruct (find_chat id (chat_history s)) as [[i chat]|] eqn:Hfind.
      * exists i, chat. split; [done|]. by apply (Hcont id i).
      * by apply find_chat_None in Hfind.
  - intros Ht. specialize (Hanswered Ht). split; [done|].
    pose proof (in_turns_balanced (working s) (turns_deref s _ Hturns)) as Hlen.
    rewrite <- Hcount in Hlen. lia.
Qed.

(** X11. In every state of a session the list object of a saved chat is
    not the list the working messages are appended to, so no submit and no
    clear changes what the saved chats hold. *)
Theorem saved_lists_are_not_shared (evs : list Event) (e : Event) :
  let s := run evs init in
  (∀ c, c ∈ chat_history s →
     Chat.messages c ≠ messages s ∧ is_Some (heap s !! Chat.messages c))
  ∧ (edits_working e = true → saved_threads (step e s) = saved_threads s).
Proof.
  intros s. pose proof (separated_run evs) as Hsep. fold s in Hsep.
  split.
  - intros c Hc. unfold separated in Hsep. rewrite Forall_forall in Hsep.
    destruct (Hsep c Hc). done.
  - intros He. by destruct (edit_separated e s He Hsep) as (_ & ? & _).
Qed.

(** X12. The ids of the saved chats stay pairwise distinct along any
    run in which every UUID drawn by New Chat is new among the saved
    ids. *)
Theorem chat_ids_stay_distinct (evs : list Event) (s : State) :
  fresh_uuids evs s → NoDup (chat_ids s) → NoDup (chat_ids (run evs s)).
Proof. apply chat_ids_nodup_run. Qed.

(** ** Load, delete and New Chat *)

(** X13. Loading a saved chat does not save the working thread first:
    the saved chats are exactly as before, the working messages, thread id
    and count are replaced by those of the loaded chat, and no request is
    sent; loading the same chat again changes nothing that can be seen. *)
Theorem load_replaces_working_thread (id : pystr) (i : nat) (chat : Chat.t)
    (s : State) :
  saved_nonempty s →
  find_chat id (chat_history s) = Some (i, chat) →
  let s1 := step (LoadChat id) s in
  let s2 := step (LoadChat id) s1 in
  saved_threads s1 = saved_threads s
  ∧ working s1 = stored s chat
  ∧ thread_id s1 = Chat.thread_id chat
  ∧ conversation_count s1 = Chat.count chat
  ∧ active_chat_id s1 = Some id
  ∧ requests s1 = requests s
  ∧ (saved_threads s2, working s2, thread_id s2, conversation_count s2,
     active_chat_id s2)
    = (saved_threads s1, working s1, thread_id s1, conversation_count s1,
       active_chat_id s1).
Proof.
  intros Hne Hfind s1 s2.
  destruct (find_chat_elem id i chat _ Hfind) as [Hin Hid].
  destruct (load_chat_restores id i chat s Hfind) as (Hw1 & Ht1 & Hc1 & Ha1).
  destruct (load_chat_separated id i chat s Hfind Hne) as [Hsep1 Hsaved1].
  change (load_chat id s) with s1 in *.
  assert (Hhist1 : chat_history s1 = chat_history s).
  { subst s1. cbn [step]. by rewrite (load_chat_found id i chat). }
  assert (Hfind1 : find_chat id (chat_history s1) = Some (i, chat))
    by (by rewrite Hhist1).
  assert (Hne1 : saved_nonempty s1) by (by apply saved_nonempty_step).
  destruct (load_chat_restores id i chat s1 Hfind1) as (Hw2 & Ht2 & Hc2 & Ha2).
  destruct (load_chat_separated id i chat s1 Hfind1 Hne1) as [_ Hsaved2].
  change (load_chat id s1) with s2 in *.
  assert (Hstored1 : stored s1 chat = stored s chat).
  { pose proof (stored_alloc_same s s1 (stored s chat) (saved_allocated s Hne)) as Hsame.
    rewrite Forall_forall in Hsame. apply Hsame; [|done].
    subst s1. cbn [step]. by rewrite (load_chat_found id i chat). }
  rewrite Hid in Ha1, Ha2.
  repeat split; try done.
  - pose proof (requests_step (LoadChat id) s) as Hreq. by rewrite app_nil_r in Hreq.
  - by rewrite Hsaved2, Hw2, Ht2, Hc2, Ha2, Hw1, Ht1, Hc1, Ha1, Hstored1.
Qed.

(** X14. Deleting a saved chat removes exactly its entry and leaves the
    other entries as they are.  If the deleted chat is the active one the
    working thread is discarded with it, unsaved messages included;
    otherwise the working messages, thread id, count and active chat are
    untouched. *)
Theorem delete_removes_one_entry (id : pystr) (idx : nat) (chat : Chat.t)
    (s : State) :
  saved_nonempty s →
  find_chat id (chat_history s) = Some (idx, chat) →
  let s' := step (DeleteChat id) s in
  saved_threads s' = delete idx (saved_threads s)
  ∧ length (chat_history s') + 1 = length (chat_history s)
  ∧ (active_chat_id s = Some id →
     working s' = [] ∧ thread_id s' = None ∧ conversation_count s' = 0
     ∧ active_chat_id s' = None)
  ∧ (active_chat_id s ≠ Some id →
     working s' = working s ∧ thread_id s' = thread_id s
     ∧ conversation_count s' = conversation_count s
     ∧ active_chat_id s' = active_chat_id s).
Proof.
  intros Hne Hfind s'.
  destruct (find_chat_elem id idx chat _ Hfind) as [Hin Hid].
  assert (Hidx : chat_history s !! idx = Some chat).
  { unfold find_chat in Hfind. by apply list_find_Some in Hfind as (? & _). }
  assert (Hs' : s' = delete_row idx chat s).
  { subst s'. cbn [step]. unfold delete_chat. by rewrite Hfind. }
  pose proof (saved_allocated s Hne) as Halloc.
  set (s0 := {| messages := messages s; thread_id := thread_id s;
                conversation_count := conversation_count s;
                chat_history := delete idx (chat_history s);
                active_chat_id := active_chat_id s;
                heap := heap s; requests := requests s |}).
  assert (Hsaved0 : saved_threads s0 = delete idx (saved_threads s)).
  { change (saved_threads s0)
      with ((λ c, (Chat.id c, Chat.title c, stored s c, Chat.thread_id c,
                   Chat.count c)) <$> delete idx (chat_history s)).
    apply list_fmap_delete. }
  assert (Halloc0 : Forall (λ c, is_Some (heap s0 !! Chat.messages c))
                      (chat_history s0)) by (by apply Forall_delete).
  split; [|split; [|split]].
  - rewrite Hs'. unfold delete_row. fold s0. case_decide; [|done].
    destruct (reset_separated s0 Halloc0) as [_ ->]. done.
  - rewrite Hs', chat_history_delete_row, length_delete by eauto.
    apply lookup_lt_Some in Hidx. lia.
  - intros Hact. rewrite Hs'. unfold delete_row. fold s0.
    rewrite decide_True by (by rewrite Hid). by rewrite working_reset.
  - intros Hact. rewrite Hs'. unfold delete_row. fold s0.
    rewrite decide_False by (by rewrite Hid). done.
Qed.

(** X15. New Chat always leaves an empty working thread without thread
    id, count or active chat, and pressing it again right away changes
    nothing that can be seen: an empty thread is not saved. *)
Theorem new_chat_twice (u u' : N) (now now' : Q) (s : State) :
  saved_nonempty s →
  let s1 := step (NewChat u now) s in
  let s2 := step (NewChat u' now') s1 in
  (working s1, thread_id s1, conversation_count s1, active_chat_id s1)
    = ([], None, 0, None)
  ∧ requests s1 = requests s
  ∧ (saved_threads s2, working s2, thread_id s2, conversation_count s2,
     active_chat_id s2, requests s2)
    = (saved_threads s1, working s1, thread_id s1, conversation_count s1,
       active_chat_id s1, requests s1).
Proof.
  intros Hne s1 s2.
  assert (Hw1 : working s1 = []) by apply working_reset.
  assert (Hne1 : saved_nonempty s1) by (by apply saved_nonempty_step).
  assert (Hs2 : s2 = reset_current_chat s1).
  { subst s2. cbn [step]. unfold new_chat, save_current_chat. by rewrite Hw1. }
  destruct (reset_separated s1 (saved_allocated s1 Hne1)) as [_ Hsaved].
  split; [by rewrite Hw1|]. split.
  - pose proof (requests_step (NewChat u now) s) as Hreq. by rewrite app_nil_r in Hreq.
  - rewrite Hs2, Hsaved, working_reset, Hw1. done.
Qed.

(** ** Order of the saved chats *)

Lemma newest_first_cons now ts :
  Forall (λ t, (t <= now)%Q) ts → newest_first ts → newest_first (now :: ts).
Proof. intros Hall Hts. by constructor. Qed.

Lemma newest_first_delete idx ts : newest_first ts → newest_first (delete idx ts).
Proof.
  unfold newest_first. intros Hts. revert idx.
  induction Hts as [|t ts Hts IH Hall]; intros idx; [destruct idx; constructor|].
  destruct idx as [|idx]; [done|]. cbn [delete list_delete].
  constructor; [apply IH | by apply Forall_delete].
Qed.

Lemma newest_first_step e s :
  clock_ok e s → newest_first (timestamps s) → newest_first (timestamps (step e s)).
Proof.
  intros Hclock Hts. destruct e as [u now|id|id| |prompt o]; cbn [step].
  - unfold new_chat. change (timestamps (reset_current_chat ?x)) with (timestamps x).
    destruct (timestamps_save u now s) as [-> | (_ & _ & ->)]; [done|].
    by apply newest_first_cons.
  - unfold load_chat. by destruct (find_chat id (chat_history s)) as [[idx chat]|].
  - unfold delete_chat.
    destruct (find_chat id (chat_history s)) as [[idx chat]|]; [|done].
    unfold timestamps. rewrite chat_history_delete_row, list_fmap_delete.
    by apply newest_first_delete.
  - unfold clear_current_chat. by destruct (working s).
  - unfold timestamps. by rewrite (proj1 (chat_input_keeps prompt o s)).
Qed.

(** X16. The saved chats are kept newest first: along any run in which
    the clock read by New Chat is not behind the timestamps already
    stored, the timestamps of [chat_history] are in descending order;
    writing over the active chat keeps its timestamp and position, and a
    delete keeps the order of the rest. *)
Theorem saved_chats_newest_first (evs : list Event) (s : State) :
  clock_run evs s → newest_first (timestamps s) →
  newest_first (timestamps (run evs s)).
Proof.
  revert s. induction evs as [|e evs IH]; intros s Hclock Hts; [done|].
  destruct Hclock as [He Hrest]. by apply IH, newest_first_step.
Qed.

(** ** The saved chats over one event *)

Lemma saved_threads_update u now s i old :
  working s ≠ [] →
  Forall (λ c, is_Some (heap s !! Chat.messages c)) (chat_history s) →
  chat_history (save_current_chat u now s)
  = <[ i := Chat.update (new_loc (heap s)) (thread_id s) (conversation_count s) old ]>
      (chat_history s) →
  saved_threads (save_current_chat u now s)
  = <[ i := (Chat.id old, Chat.title old, working s, thread_id s,
             conversation_count s) ]> (saved_threads s).
Proof.
  intros Hw Halloc Hhist.
  unfold saved_threads at 1. rewrite Hhist, list_fmap_insert.
  rewrite (saved_threads_same s _ (stored_save_same u now s Halloc)).
  cbn [Chat.update Chat.id Chat.title Chat.thread_id Chat.count].
  unfold stored at 1. cbn [Chat.messages].
  destruct (save_current_chat_fields u now s Hw) as (_ & _ & _ & _ & _ & Hheap).
  by rewrite Hheap, deref_insert_eq.
Qed.

(** X17. Where no saved chat shares its list with the working thread,
    as in every state of a session, a saved chat that is neither the active
    one nor the one being deleted comes through every event with its id,
    title, messages, thread id and count unchanged. *)
Theorem saved_chats_persist (e : Event) (s : State)
    (t : pystr * pystr * list Message * option pystr * nat) :
  separated s →
  t ∈ saved_threads s →
  active_chat_id s ≠ Some t.1.1.1.1 →
  e ≠ DeleteChat t.1.1.1.1 →
  t ∈ saved_threads (step e s).
Proof.
  intros Hsep Ht Hact He. pose proof (separated_allocated s Hsep) as Halloc.
  destruct e as [u now|id|id| |prompt o].
  - cbn [step]. unfold new_chat.
    destruct (reset_separated _ (save_allocated u now s Halloc)) as [_ ->].
    destruct (decide (working s = [])) as [Hw|Hw].
    { unfold save_current_chat. by rewrite Hw. }
    destruct (save_current_chat_history u now s Hw)
      as [[Hno Hhist]|(Hyes & aid & i & old & Haid & Hfind & Hhist)].
    + destruct (save_new_entry u now s Hw Hno Halloc) as [-> _].
      by apply list_elem_of_further.
    + rewrite (saved_threads_update u now s i old Hw Halloc Hhist).
      apply list_elem_of_lookup in Ht as [j Hj].
      apply list_elem_of_lookup. exists j.
      rewrite list_lookup_insert_ne; [done|]. intros <-.
      destruct (find_chat_elem aid i old _ Hfind) as [_ Hid].
      unfold find_chat in Hfind. apply list_find_Some in Hfind as (Hi & _).
      unfold saved_threads in Hj. rewrite list_lookup_fmap, Hi in Hj.
      injection Hj as <-. cbn [fst] in Hact. congruence.
  - cbn [step]. unfold load_chat.
    destruct (find_chat id (chat_history s)) as [[i chat]|]; [|done].
    by destruct (rebind_separated s (load_row chat s) (stored s chat) Halloc)
      as [_ ->].
  - cbn [step]. unfold delete_chat.
    destruct (find_chat id (chat_history s)) as [[idx chat]|] eqn:Hfind; [|done].
    destruct (find_chat_elem id idx chat _ Hfind) as [_ Hid].
    unfold find_chat in Hfind. apply list_find_Some in Hfind as (Hidx & _).
    set (s0 := {| messages := messages s; thread_id := thread_id s;
                  conversation_count := conversation_count s;
                  chat_history := delete idx (chat_history s);
                  active_chat_id := active_chat_id s;
                  heap := heap s; requests := requests s |}).
    assert (Hin0 : t ∈ saved_threads s0).
    { change (saved_threads s0)
        with ((λ c, (Chat.id c, Chat.title c, stored s c, Chat.thread_id c,
                     Chat.count c)) <$> delete idx (chat_history s)).
      rewrite list_fmap_delete.
      eapply elem_of_delete_other; [exact Ht| |].
      - fold (saved_threads s). unfold saved_threads.
        by rewrite list_lookup_fmap, Hidx.
      - intros <-. cbn [fst] in He. apply He. by rewrite Hid. }
    unfold delete_row. fold s0. case_decide; [|done].
    assert (Halloc0 : Forall (λ c, is_Some (heap s0 !! Chat.messages c))
                        (chat_history s0)) by (by apply Forall_delete).
    by destruct (reset_separated s0 Halloc0) as [_ ->].
  - by destruct (edit_separated ClearChat s eq_refl Hsep) as (_ & -> & _).
  - by destruct (edit_separated (ChatInput prompt o) s eq_refl Hsep) as (_ & -> & _).
Qed.

(** ** The highlighted chat *)

Lemma count_chats_with_id aid (hist : list Chat.t) :
  NoDup (Chat.id <$> hist) →
  count_if (λ c, bool_decide (Chat.id c = aid)) hist
  = if bool_decide (aid ∈ Chat.id <$> hist) then 1 else 0.
Proof.
  induction hist as [|c rest IH]; [done|].
  rewrite fmap_cons. intros [Hnot Hnodup]%NoDup_cons. cbn [count_if].
  rewrite (IH Hnodup). destruct (decide (Chat.id c = aid)) as [<-|Hne].
  - rewrite bool_decide_eq_true_2 by done.
    rewrite (bool_decide_eq_false_2 (Chat.id c ∈ Chat.id <$> rest)) by done.
    by rewrite bool_decide_eq_true_2 by apply list_elem_of_here.
  - rewrite bool_decide_eq_false_2 by done. cbn [Nat.add].
    assert (Hiff : aid ∈ Chat.id c :: (Chat.id <$> rest) ↔ aid ∈ Chat.id <$> rest).
    { rewrite elem_of_cons. split; [intros [Heq|Hin]; [by destruct Hne | done]|].
      by right. }
    by rewrite (bool_decide_ext _ _ Hiff).
Qed.

(** X18. At most one chat is active at a time: in a session whose
    UUIDs are all new when drawn, the chat history shows exactly one button
    as "secondary" while a chat is active, and none otherwise. *)
Theorem one_chat_highlighted (evs : list Event) :
  fresh_uuids evs init →
  let s := run evs init in
  count_if (λ c, bool_decide (button_type s c = secondary)) (chat_history s)
  = match active_chat_id s with Some _ => 1 | None => 0 end.
Proof.
  intros Hfresh s.
  assert (Hnodup : NoDup (chat_ids s)).
  { apply chat_ids_nodup_run; [done | constructor]. }
  destruct (sound_run evs) as (_ & _ & _ & _ & Hactive & _). fold s in Hactive.
  destruct (active_chat_id s) as [aid|] eqn:Hact.
  - destruct (Hactive aid Hact) as [Hin _].
    pose proof (count_chats_with_id aid (chat_history s) Hnodup) as Hone.
    rewrite (bool_decide_eq_true_2 _ Hin) in Hone. rewrite <- Hone.
    assert (Hsame : ∀ c, bool_decide (button_type s c = secondary)
                         = bool_decide (Chat.id c = aid)).
    { intros c. apply bool_decide_ext. unfold button_type. rewrite Hact.
      case_decide; naive_solver. }
    clear -Hsame. induction (chat_history s) as [|c rest IH]; [done|].
    cbn [count_if]. by rewrite Hsame, IH.
  - induction (chat_history s) as [|c rest IH]; [done|].
    cbn [count_if]. rewrite IH. unfold button_type. rewrite Hact.
    by rewrite decide_False by done.
Qed.

End Session.

(** * The session on examples *)

Lemma submit_failure_example :
  lit "hi" ≠ []
  ∧ working (step sample_1f (ChatInput (Some (lit "hi")) Failed) init)
    = working init ++ [HumanMessage (lit "hi")].
Proof.
  assert (Hp : lit "hi" ≠ []) by (vm_compute; discriminate).
  split; [exact Hp|].
  exact (proj1 (submit_failure_keeps_user_message sample_1f (lit "hi") init Hp)).
Defined.

(** Two failed submits leave two unanswered user messages: the length 2
    is not twice the number of successes (0) plus 0 or 1. *)
Lemma two_failed_submits_two_unanswered :
  let inputs := [(Some (lit "a"), Failed); (Some (lit "b"), Failed)] in
  let s' := run sample_1f (submits inputs) init in
  working s' = [HumanMessage (lit "a"); HumanMessage (lit "b")]
  ∧ count_if succeeded inputs = 0
  ∧ unanswered (working s') = 2
  ∧ ¬ ∃ k, k ≤ 1 ∧ length (working s') = 2 * count_if succeeded inputs + k.
Proof.
  vm_compute. repeat split. intros (k & Hk & Hlen). lia.
Qed.

Lemma working_length_example :
  working init = []
  ∧ length (working (run sample_1f
              (submits [(Some (lit "a"), Failed);
                        (Some (lit "b"), Ok (Result.mk None None None) 1%N)])
              init))
    = 3.
Proof.
  assert (Hinit : working init = []) by reflexivity.
  split; [exact Hinit|].
  pose proof (working_length_of_submits sample_1f
                [(Some (lit "a"), Failed);
                 (Some (lit "b"), Ok (Result.mk None None None) 1%N)]
                init Hinit) as [Hlen Hun].
  rewrite Hlen, Hun. reflexivity.
Defined.

(** A question of one space is empty after trimming, and yet it is
    appended and sent. *)
Lemma whitespace_question_is_submitted :
  ¬ ∀ question o s,
      blank question = true →
      step sample_1f (ChatInput (Some question) o) s = s.
Proof.
  intros Hnoop.
  specialize (Hnoop [32%N] Failed init eq_refl).
  apply (f_equal requests) in Hnoop. vm_compute in Hnoop. discriminate.
Qed.

Lemma empty_question_example :
  lit "hi" ≠ []
  ∧ requests (step sample_1f (ChatInput (Some (lit "hi")) Failed) init)
    = requests init ++ [query_rag (lit "hi") (thread_id init)].
Proof.
  assert (Hp : lit "hi" ≠ []) by (vm_compute; discriminate).
  split; [exact Hp|].
  exact (proj1 (proj2 (proj2 (proj2 (empty_question_is_noop sample_1f Failed init))
                         (lit "hi") Hp))).
Defined.

(** C4.  The thread id is not set on the first successful submit where
    its result carries a thread id that is the empty string or [null]:
    [result.get] then returns that value and not the generated UUID, so
    after the first successful submit the thread has two messages and
    count 1 but no thread id, and it is the second successful submit that
    sets it, from its result or by synthesis.  With the key missing, the
    same first submit synthesizes a UUID, as the comment of lines 242-243
    intends. *)
Theorem falsy_thread_id_is_not_replaced :
  let q := Some (lit "q") in
  let empty := Result.mk (Some (lit "a")) (Some 7%Q) (Some (Some [])) in
  let null := Result.mk (Some (lit "a")) (Some 7%Q) (Some None) in
  let missing := Result.mk (Some (lit "a")) (Some 7%Q) None in
  let named := Result.mk (Some (lit "a")) (Some 7%Q) (Some (Some (lit "abc"))) in
  let s1 := step sample_1f (ChatInput q (Ok empty 1%N)) init in
  let s1' := step sample_1f (ChatInput q (Ok null 1%N)) init in
  (thread_id s1, conversation_count s1, length (working s1)) = (Some [], 1, 2)
  ∧ thread_id (step sample_1f (ChatInput q (Ok named 2%N)) s1) = Some (lit "abc")
  ∧ (thread_id s1', conversation_count s1', length (working s1')) = (None, 1, 2)
  ∧ thread_id (step sample_1f (ChatInput q (Ok missing 2%N)) s1')
    = Some (str_uuid 2%N)
  ∧ thread_id (step sample_1f (ChatInput q (Ok missing 1%N)) init)
    = Some (str_uuid 1%N).
Proof.
  intros q empty null missing named s1 s1'.
  split; [reflexivity|]. split; [reflexivity|]. split; [reflexivity|].
  split; reflexivity.
Qed.

Lemma present_thread_id_example :
  lit "q" ≠ [] ∧ opt_truthy (thread_id init) = false ∧ lit "abc" ≠ []
  ∧ thread_id (step sample_1f
                 (ChatInput (Some (lit "q"))
                    (Ok (Result.mk None None (Some (Some (lit "abc")))) 1%N))
                 init)
    = Some (lit "abc").
Proof.
  assert (Hp : lit "q" ≠ []) by (vm_compute; discriminate).
  assert (Hf : opt_truthy (thread_id init) = false) by reflexivity.
  assert (Ht : lit "abc" ≠ []) by (vm_compute; discriminate).
  split; [exact Hp|]. split; [exact Hf|]. split; [exact Ht|].
  exact (proj1 (proj2 (proj2 (proj2 (present_thread_id_is_kept sample_1f))))
           (lit "q") (Result.mk None None (Some (Some (lit "abc")))) 1%N init
           (lit "abc") Hp Hf eq_refl Ht).
Defined.

Lemma confidence_example :
  (8 <= 8)%Q ∧ confidence_text 8%Q = lit "High".
Proof.
  assert (H8 : (8 <= 8)%Q) by (vm_compute; discriminate).
  split; [exact H8|].
  exact (proj2 (proj1 (confidence_annotation sample_1f
                          (Result.mk None (Some 8%Q) None))) H8).
Defined.

Lemma saved_title_example :
  let s := run sample_1f [ChatInput (Some (lit "hello")) Failed] init in
  let s' := save_current_chat 7%N 1%Q s in
  working s ≠ []
  ∧ ∃ i chat, find_chat (saved_id 7%N s) (chat_history s') = Some (i, chat)
      ∧ stored s' chat = working s
      ∧ Chat.title chat = title_spec (working s).
Proof.
  intros s s'.
  assert (Hw : working s ≠ []) by (vm_compute; discriminate).
  split; [exact Hw|].
  exact (proj1 (proj2 (saved_title_is_derived sample_1f
                         [ChatInput (Some (lit "hello")) Failed] 7%N 1%Q)) Hw).
Defined.

Lemma save_then_load_example :
  let s := run sample_1f
             [ChatInput (Some (lit "q1")) (Ok (Result.mk None (Some 9%Q) None) 3%N);
              NewChat 7%N 1%Q;
              LoadChat (str_uuid 7%N);
              ChatInput (Some (lit "q2")) Failed] init in
  let s2 := step sample_1f (LoadChat (saved_id 8%N s))
              (step sample_1f (NewChat 8%N 2%Q) s) in
  working s ≠ [] ∧ saved_nonempty s
  ∧ working s2 = working s ∧ thread_id s2 = thread_id s
  ∧ conversation_count s2 = conversation_count s.
Proof.
  intros s s2.
  assert (Hw : working s ≠ []) by (vm_compute; discriminate).
  assert (Hne : saved_nonempty s).
  { unfold saved_nonempty. vm_compute. repeat constructor. discriminate. }
  split; [exact Hw|]. split; [exact Hne|].
  pose proof (save_then_load_restores sample_1f 8%N 2%Q s
                (step sample_1f (NewChat 8%N 2%Q) s) Hw (or_intror eq_refl))
    as (Hmsgs & Htid & Hcount & _).
  exact (conj Hmsgs (conj Htid Hcount)).
Defined.

Lemma delete_chat_example :
  let s := run sample_1f
             [ChatInput (Some (lit "q1")) Failed; NewChat 7%N 1%Q;
              ChatInput (Some (lit "q2")) Failed; NewChat 8%N 2%Q] init in
  NoDup (chat_ids s)
  ∧ step sample_1f (DeleteChat (str_uuid 7%N))
      (step sample_1f (DeleteChat (str_uuid 7%N)) s)
    = step sample_1f (DeleteChat (str_uuid 7%N)) s.
Proof.
  intros s.
  assert (Hnodup : NoDup (chat_ids s)).
  { apply (bool_decide_unpack _). vm_compute. exact I. }
  split; [exact Hnodup|].
  exact (proj1 (delete_chat_idempotent sample_1f (str_uuid 7%N) s Hnodup)).
Defined.

Lemma saved_chats_example :
  let s := run sample_1f
             [ChatInput (Some (lit "q1")) Failed; NewChat 7%N 1%Q] init in
  saved_nonempty s
  ∧ saved_nonempty (step sample_1f (DeleteChat (str_uuid 7%N)) s).
Proof.
  intros s.
  assert (Hne : saved_nonempty s).
  { unfold saved_nonempty. vm_compute. repeat constructor. discriminate. }
  split; [exact Hne|].
  exact (proj1 (proj2 (saved_chats_never_empty sample_1f))
           (DeleteChat (str_uuid 7%N)) s Hne).
Defined.

Lemma clear_then_save_example :
  let s := run sample_1f
             [ChatInput (Some (lit "q1")) Failed; NewChat 7%N 1%Q;
              LoadChat (str_uuid 7%N)] init in
  let inputs := [(Some (lit "q2"), Ok (Result.mk None (Some 6%Q) None) 3%N)] in
  let s2 := run sample_1f (submits inputs) (step sample_1f ClearChat s) in
  working s ≠ [] ∧ saved_nonempty s ∧ working s2 ≠ []
  ∧ chat_ids (step sample_1f (NewChat 8%N 2%Q) s2) = str_uuid 8%N :: chat_ids s.
Proof.
  intros s inputs s2.
  assert (Hw : working s ≠ []) by (vm_compute; discriminate).
  assert (Hne : saved_nonempty s).
  { unfold saved_nonempty. vm_compute. repeat constructor. discriminate. }
  assert (Hw2 : working s2 ≠ []) by (vm_compute; discriminate).
  split; [exact Hw|]. split; [exact Hne|]. split; [exact Hw2|].
  exact (proj1 (proj2 (clear_then_save_inserts sample_1f s
                         (step sample_1f (NewChat 8%N 2%Q) s2) inputs 8%N 2%Q
                         Hw Hne (or_intror eq_refl)) Hw2)).
Defined.

(** The scenario of a new session: a first submit succeeds with
    confidence 9 and thread id "abc"; New Chat saves the two messages and
    empties the working state; loading the saved chat brings both back. *)
Example new_session_scenario :
  let r := Result.mk (Some (lit "It is a SOW.")) (Some 9%Q) (Some (Some (lit "abc"))) in
  let s1 := step sample_1f (ChatInput (Some (lit "What is SOW-123?")) (Ok r 5%N)) init in
  let s2 := step sample_1f (NewChat 7%N 1%Q) s1 in
  let s3 := step sample_1f (LoadChat (str_uuid 7%N)) s2 in
  (length (working s1), thread_id s1, conversation_count s1)
    = (2, Some (lit "abc"), 1)
  ∧ (length (saved_threads s2), working s2, thread_id s2, active_chat_id s2)
    = (1, [], None, None)
  ∧ (working s3, thread_id s3, conversation_count s3, active_chat_id s3)
    = (working s1, Some (lit "abc"), 1, Some (str_uuid 7%N)).
Proof. vm_compute. done. Qed.

Example long_title :
  chat_title (Some (lit "Tell me about the Acme SOW deliverables and milestones in detail"))
  = lit "Tell me about the Acme SOW deliverables and milest" ++ lit "...".
Proof. reflexivity. Qed.

(** ** Further examples *)

Lemma thread_id_sent_example :
  let s := step sample_1f
             (ChatInput (Some (lit "q"))
                (Ok (Result.mk None None (Some (Some (lit "abc")))) 1%N)) init in
  let inputs := [(Some (lit "more"), Failed);
                 (Some (lit "again"), Ok (Result.mk None None None) 2%N)] in
  thread_id s = Some (lit "abc") ∧ lit "abc" ≠ []
  ∧ ∃ sent,
      requests (run sample_1f (submits inputs) s) = requests s ++ sent
      ∧ Forall (λ r, params_thread_id r = Some (lit "abc")) sent
      ∧ length sent = count_if succeeded inputs + count_if failed inputs
      ∧ thread_id (run sample_1f (submits inputs) s) = Some (lit "abc").
Proof.
  intros s inputs.
  assert (Ht : thread_id s = Some (lit "abc")) by reflexivity.
  assert (Hne : lit "abc" ≠ []) by (vm_compute; discriminate).
  split; [exact Ht|]. split; [exact Hne|].
  exact (thread_id_sent_with_every_request sample_1f inputs s (lit "abc") Ht Hne).
Defined.

Lemma chat_title_example :
  lit "hello" ≠ [] ∧ length (lit "hello") ≤ 50
  ∧ chat_title (Some (lit "hello")) = lit "hello".
Proof.
  assert (Hne : lit "hello" ≠ []) by (vm_compute; discriminate).
  assert (Hlen : length (lit "hello") ≤ 50) by (vm_compute; lia).
  split; [exact Hne|]. split; [exact Hlen|].
  exact (proj1 (proj2 (proj2 (chat_title_bounds (Some (lit "hello")))))
           (lit "hello") eq_refl Hne Hlen).
Defined.

Lemma save_overwrites_example :
  let s := run sample_1f
             [ChatInput (Some (lit "q1")) Failed; NewChat 7%N 1%Q;
              LoadChat (str_uuid 7%N); ChatInput (Some (lit "q2")) Failed] init in
  let old := Chat.mk (str_uuid 7%N) (lit "q1") 1 None 0 1%Q in
  working s ≠ [] ∧ saved_nonempty s
  ∧ active_chat_id s = Some (str_uuid 7%N) ∧ str_uuid 7%N ≠ []
  ∧ find_chat (str_uuid 7%N) (chat_history s) = Some (0, old)
  ∧ saved_threads (save_current_chat 8%N 2%Q s)
    = <[ 0 := (str_uuid 7%N, lit "q1", working s, thread_id s,
               conversation_count s) ]> (saved_threads s).
Proof.
  intros s old.
  assert (Hw : working s ≠ []) by (vm_compute; discriminate).
  assert (Hne : saved_nonempty s).
  { unfold saved_nonempty. vm_compute. repeat constructor. discriminate. }
  assert (Hact : active_chat_id s = Some (str_uuid 7%N)) by reflexivity.
  assert (Hid : str_uuid 7%N ≠ []) by (vm_compute; discriminate).
  assert (Hfind : find_chat (str_uuid 7%N) (chat_history s) = Some (0, old))
    by (vm_compute; reflexivity).
  split; [exact Hw|]. split; [exact Hne|]. split; [exact Hact|].
  split; [exact Hid|]. split; [exact Hfind|].
  exact (proj1 (save_overwrites_active_entry 8%N 2%Q s (str_uuid 7%N)
                  0 old Hw Hne Hact Hid Hfind)).
Defined.

Lemma messages_take_turns_example :
  let s := run sample_1f
             [ChatInput (Some (lit "q1")) (Ok (Result.mk None None None) 1%N);
              ChatInput (Some (lit "q2")) Failed] init in
  starts_with_user (working s) ∧ answers_follow false (working s).
Proof.
  intros s.
  pose proof (messages_take_turns sample_1f
                [ChatInput (Some (lit "q1")) (Ok (Result.mk None None None) 1%N);
                 ChatInput (Some (lit "q2")) Failed]
                (working s) (or_introl eq_refl)) as (Hstart & _ & Hturns & _).
  exact (conj Hstart Hturns).
Defined.

Lemma active_chat_example :
  let s := run sample_1f
             [ChatInput (Some (lit "q1")) Failed; NewChat 7%N 1%Q;
              LoadChat (str_uuid 7%N)] init in
  active_chat_id s = Some (str_uuid 7%N)
  ∧ working s ≠ [].
Proof.
  intros s.
  assert (Hact : active_chat_id s = Some (str_uuid 7%N)) by reflexivity.
  split; [exact Hact|].
  exact (proj1 (proj2 (proj1 (active_chat_is_saved sample_1f
                                [ChatInput (Some (lit "q1")) Failed;
                                 NewChat 7%N 1%Q; LoadChat (str_uuid 7%N)])
                         (str_uuid 7%N) Hact))).
Defined.

Lemma saved_lists_example :
  let s := run sample_1f
             [ChatInput (Some (lit "q1")) Failed; NewChat 7%N 1%Q;
              LoadChat (str_uuid 7%N)] init in
  edits_working (ChatInput (Some (lit "q2")) Failed) = true
  ∧ saved_threads (step sample_1f (ChatInput (Some (lit "q2")) Failed) s)
    = saved_threads s.
Proof.
  intros s.
  assert (He : edits_working (ChatInput (Some (lit "q2")) Failed) = true)
    by reflexivity.
  split; [exact He|].
  exact (proj2 (saved_lists_are_not_shared sample_1f
                  [ChatInput (Some (lit "q1")) Failed; NewChat 7%N 1%Q;
                   LoadChat (str_uuid 7%N)]
                  (ChatInput (Some (lit "q2")) Failed)) He).
Defined.

Lemma chat_ids_distinct_example :
  let evs := [ChatInput (Some (lit "q1")) Failed; NewChat 7%N 1%Q;
              ChatInput (Some (lit "q2")) Failed; NewChat 8%N 2%Q] in
  fresh_uuids sample_1f evs init ∧ NoDup (chat_ids init)
  ∧ NoDup (chat_ids (run sample_1f evs init)).
Proof.
  intros evs.
  assert (Hfresh : fresh_uuids sample_1f evs init).
  { repeat split; apply (bool_decide_unpack _); vm_compute; exact I. }
  assert (Hnodup : NoDup (chat_ids init)) by constructor.
  split; [exact Hfresh|]. split; [exact Hnodup|].
  exact (chat_ids_stay_distinct sample_1f evs init Hfresh Hnodup).
Defined.

Lemma load_example :
  let s := run sample_1f
             [ChatInput (Some (lit "q1")) Failed; NewChat 7%N 1%Q;
              ChatInput (Some (lit "q2")) Failed] init in
  let chat := Chat.mk (str_uuid 7%N) (lit "q1") 1 None 0 1%Q in
  let s1 := step sample_1f (LoadChat (str_uuid 7%N)) s in
  saved_nonempty s
  ∧ find_chat (str_uuid 7%N) (chat_history s) = Some (0, chat)
  ∧ saved_threads s1 = saved_threads s
  ∧ working s1 = stored s chat.
Proof.
  intros s chat s1.
  assert (Hne : saved_nonempty s).
  { unfold saved_nonempty. vm_compute. repeat constructor. discriminate. }
  assert (Hfind : find_chat (str_uuid 7%N) (chat_history s) = Some (0, chat))
    by (vm_compute; reflexivity).
  split; [exact Hne|]. split; [exact Hfind|].
  pose proof (load_replaces_working_thread sample_1f (str_uuid 7%N) 0 chat s
                Hne Hfind) as (Hsaved & Hwork & _).
  exact (conj Hsaved Hwork).
Defined.

Lemma delete_example :
  let s := run sample_1f
             [ChatInput (Some (lit "q1")) Failed; NewChat 7%N 1%Q;
              ChatInput (Some (lit "q2")) Failed] init in
  let chat := Chat.mk (str_uuid 7%N) (lit "q1") 1 None 0 1%Q in
  let s' := step sample_1f (DeleteChat (str_uuid 7%N)) s in
  saved_nonempty s
  ∧ find_chat (str_uuid 7%N) (chat_history s) = Some (0, chat)
  ∧ active_chat_id s ≠ Some (str_uuid 7%N)
  ∧ saved_threads s' = delete 0 (saved_threads s)
  ∧ working s' = working s.
Proof.
  intros s chat s'.
  assert (Hne : saved_nonempty s).
  { unfold saved_nonempty. vm_compute. repeat constructor. discriminate. }
  assert (Hfind : find_chat (str_uuid 7%N) (chat_history s) = Some (0, chat))
    by (vm_compute; reflexivity).
  assert (Hact : active_chat_id s ≠ Some (str_uuid 7%N)) by (vm_compute; discriminate).
  split; [exact Hne|]. split; [exact Hfind|]. split; [exact Hact|].
  pose proof (delete_removes_one_entry sample_1f (str_uuid 7%N) 0 chat s Hne Hfind)
    as (Hsaved & _ & _ & Hkeep).
  exact (conj Hsaved (proj1 (Hkeep Hact))).
Defined.

Lemma new_chat_twice_example :
  let s := run sample_1f [ChatInput (Some (lit "q1")) Failed] init in
  let s1 := step sample_1f (NewChat 7%N 1%Q) s in
  let s2 := step sample_1f (NewChat 8%N 2%Q) s1 in
  saved_nonempty s
  ∧ (saved_threads s2, working s2, thread_id s2, conversation_count s2,
     active_chat_id s2, requests s2)
    = (saved_threads s1, working s1, thread_id s1, conversation_count s1,
       active_chat_id s1, requests s1).
Proof.
  intros s s1 s2.
  assert (Hne : saved_nonempty s) by constructor.
  split; [exact Hne|].
  exact (proj2 (proj2 (new_chat_twice sample_1f 7%N 8%N 1%Q 2%Q s Hne))).
Defined.

Lemma newest_first_example :
  let evs := [ChatInput (Some (lit "q1")) Failed; NewChat 7%N 1%Q;
              ChatInput (Some (lit "q2")) Failed; NewChat 8%N 2%Q] in
  clock_run sample_1f evs init ∧ newest_first (timestamps init)
  ∧ newest_first (timestamps (run sample_1f evs init)).
Proof.
  intros evs.
  assert (Hclock : clock_run sample_1f evs init).
  { split; [exact I|]. split; [constructor|]. split; [exact I|]. split; [|exact I].
    change (Forall (λ t, (t <= 2)%Q) [1%Q]).
    apply Forall_singleton. vm_compute. discriminate. }
  assert (Hts : newest_first (timestamps init)) by constructor.
  split; [exact Hclock|]. split; [exact Hts|].
  exact (saved_chats_newest_first sample_1f evs init Hclock Hts).
Defined.

Lemma saved_chats_persist_example :
  let s := run sample_1f
             [ChatInput (Some (lit "q1")) Failed; NewChat 7%N 1%Q] init in
  let t := (str_uuid 7%N, lit "q1", [HumanMessage (lit "q1")], None, 0) in
  let e := NewChat 8%N 2%Q in
  separated s ∧ t ∈ saved_threads s ∧ active_chat_id s ≠ Some t.1.1.1.1
  ∧ e ≠ DeleteChat t.1.1.1.1
  ∧ t ∈ saved_threads (step sample_1f e s).
Proof.
  intros s t e.
  assert (Hsep : separated s).
  { unfold separated. vm_compute. repeat constructor; [by eexists | discriminate]. }
  assert (Hin : t ∈ saved_threads s) by (vm_compute; apply list_elem_of_here).
  assert (Hact : active_chat_id s ≠ Some t.1.1.1.1) by (vm_compute; discriminate).
  assert (He : e ≠ DeleteChat t.1.1.1.1) by discriminate.
  split; [exact Hsep|]. split; [exact Hin|]. split; [exact Hact|].
  split; [exact He|].
  exact (saved_chats_persist sample_1f e s t Hsep Hin Hact He).
Defined.

Lemma one_chat_highlighted_example :
  let evs := [ChatInput (Some (lit "q1")) Failed; NewChat 7%N 1%Q;
              ChatInput (Some (lit "q2")) Failed; NewChat 8%N 2%Q;
              LoadChat (str_uuid 7%N)] in
  let s := run sample_1f evs init in
  fresh_uuids sample_1f evs init
  ∧ count_if (λ c, bool_decide (button_type s c = secondary)) (chat_history s)
    = match active_chat_id s with Some _ => 1 | None => 0 end.
Proof.
  intros evs s.
  assert (Hfresh : fresh_uuids sample_1f evs init).
  { repeat split; apply (bool_decide_unpack _); vm_compute; exact I. }
  split; [exact Hfresh|].
  exact (one_chat_highlighted sample_1f evs Hfresh).
Defined.
